(** * mdgo.util.dict_utils: a shallow embedding and its properties

    The definitions below follow [src/mdgo/util/dict_utils.py] function by
    function.  Conventions of the embedding:

    - a Python [float] is an exact rational ([Q]); rounding, infinities and
      NaN are outside the model, comparisons are the exact ones;
    - a Python [int] is a [Z];
    - a Python [str] is a [string] (one byte per character, so the model
      covers ASCII text);
    - a Python [dict] is an association list in insertion order whose keys
      are pairwise distinct ([dict_set] keeps the position of a key that is
      already present, as CPython does);
    - a raised exception is the [Raise] case of [result]. *)

From Stdlib Require Import QArith Qabs ZArith Lia Lqa Sorted.
From Stdlib Require Import Ascii String DecimalString DecimalZ.
From stdpp Require Import base option list sets strings.

Local Open Scope Z_scope.
Local Open Scope string_scope.
Local Open Scope list_scope.

(** ** Exceptions and results *)

Inductive exn : Type :=
| AssertionError (msg : string)
| ValueError (msg : string)
| IndexError
| StopIteration
| TypeError.

Inductive result (A : Type) : Type :=
| Ok (a : A)
| Raise (e : exn).
Arguments Ok {A} a.
Arguments Raise {A} e.

#[global] Instance result_bind : MBind result := fun A B k r =>
  match r with
  | Ok a => k a
  | Raise e => Raise e
  end.

(** ** Python dictionaries *)

Module PyDict.
Section Ops.
Context {K V : Type} `{EqDecision K}.

(** [d[k] = v] *)
Fixpoint dict_set (d : list (K * V)) (k : K) (v : V) : list (K * V) :=
  match d with
  | [] => [(k, v)]
  | (k', v') :: d' =>
      if decide (k' = k) then (k', v) :: d' else (k', v') :: dict_set d' k v
  end.

(** [d.get(k)] *)
Fixpoint dict_get (d : list (K * V)) (k : K) : option V :=
  match d with
  | [] => None
  | (k', v') :: d' => if decide (k' = k) then Some v' else dict_get d' k
  end.

(** [list(d)], the keys in insertion order *)
Definition dict_keys (d : list (K * V)) : list K := map fst d.

(** the dictionary left by [d.pop(k)] *)
Fixpoint dict_del (d : list (K * V)) (k : K) : list (K * V) :=
  match d with
  | [] => []
  | (k', v') :: d' => if decide (k' = k) then d' else (k', v') :: dict_del d' k
  end.

End Ops.
End PyDict.
Import PyDict.

(** ** Closeness tests *)

(** [math.isclose(a, b, abs_tol=t)]: the relative tolerance keeps its
    default [1e-09]; the test is CPython's, on exact rationals. *)
Definition rel_tol_default : Q := 1 # 1000000000.

Definition isclose (a b abs_tol : Q) : bool :=
  let diff := Qabs (b - a) in
  Qle_bool diff (Qabs (rel_tol_default * b))
  || Qle_bool diff (Qabs (rel_tol_default * a))
  || Qle_bool diff abs_tol.

(** [np.isclose(a, b, atol=t)]: [|a - b| <= atol + rtol * |b|] with the
    default [rtol = 1e-05]. *)
Definition np_isclose (a b atol : Q) : bool :=
  Qle_bool (Qabs (a - b)) (atol + (1 # 100000) * Qabs b).

(** ** Mass to element name *)

Section Masses.
(** The table [MM_of_Elements] is imported from the package; its items
    are taken here in iteration order. *)
Variable MM_of_Elements : list (string * Q).

(** The inner loop of [mass_to_name]: every item of the table that is
    close to [mass] appends its symbol. *)
Definition append_matches (tol : Q) (names : list string) (mass : Q) : list string :=
  foldl (fun names item =>
           if isclose mass item.2 tol then names ++ [item.1] else names)
        names MM_of_Elements.

Definition mass_to_name (masses : list Q) : result (list string) :=
  let names := foldl (append_matches (1 # 10)) [] masses in
  if decide (length masses = length names) then Ok names
  else Raise (AssertionError "Invalid mass found.").

(** [df] is the masses table: its rows in index order, each with its
    index label and its ["mass"] cell.  [df["mass"][row]] is a scalar
    when the label [row] occurs once; for a repeated label pandas returns
    a sub-series, which [math.isclose] rejects with a [TypeError]. *)
Definition df_mass (df : list (Z * Q)) (row : Z) : result Q :=
  match filter (fun r => r.1 = row) df with
  | [r] => Ok r.2
  | _ => Raise TypeError
  end.

Fixpoint lmp_items (df : list (Z * Q)) (row : Z) (items : list (string * Q))
    (atoms : list (Z * string)) : result (list (Z * string)) :=
  match items with
  | [] => Ok atoms
  | item :: items' =>
      m ← df_mass df row;
      lmp_items df row items'
        (if isclose m item.2 (1 # 100) then dict_set atoms row item.1 else atoms)
  end.

Fixpoint lmp_rows (df : list (Z * Q)) (rows : list Z)
    (atoms : list (Z * string)) : result (list (Z * string)) :=
  match rows with
  | [] => Ok atoms
  | row :: rows' =>
      atoms' ← lmp_items df row MM_of_Elements atoms;
      lmp_rows df rows' atoms'
  end.

Definition lmp_mass_to_name (df : list (Z * Q)) : result (list (Z * string)) :=
  lmp_rows df (map fst df) [].

(** The items of the table within [tol] of [mass], in table order. *)
Definition close_items (tol mass : Q) : list (string * Q) :=
  filter (fun item => isclose mass item.2 tol = true) MM_of_Elements.
End Masses.

(** ** Strings *)

Definition is_digit (c : ascii) : bool :=
  let n := nat_of_ascii c in (48 <=? n)%nat && (n <=? 57)%nat.

(** The characters [\w] matches in ASCII text: letters, digits, underscore. *)
Definition is_word_char (c : ascii) : bool :=
  let n := nat_of_ascii c in
  is_digit c || ((65 <=? n)%nat && (n <=? 90)%nat)
  || ((97 <=? n)%nat && (n <=? 122)%nat) || (n =? 95)%nat.

Definition flush (cur : string) : list string :=
  if decide (cur = "") then [] else [cur].

(** [re.findall(r"\w+", s)]: the maximal runs of word characters, left to
    right; [cur] is the run being read. *)
Fixpoint findall_word_from (cur : string) (s : string) : list string :=
  match s with
  | EmptyString => flush cur
  | String c s' =>
      if is_word_char c then findall_word_from (cur +:+ String c "") s'
      else flush cur ++ findall_word_from "" s'
  end.

Definition findall_word (s : string) : list string := findall_word_from "" s.

(** [s.isnumeric()] on ASCII text: non-empty and digits only. *)
Definition isnumeric (s : string) : bool :=
  negb (bool_decide (s = "")) && forallb is_digit (list_ascii_of_string s).

(** [s.startswith("#")] *)
Definition startswith_hash (s : string) : bool :=
  match s with
  | String c _ => bool_decide (c = "#"%char)
  | EmptyString => false
  end.

(** The digits of an integer literal as [int()] reads it from a run of word
    characters: groups of digits separated by single underscores.
    [after_digit] tells whether the previous character was a digit. *)
Fixpoint int_digits (after_digit : bool) (s : string) : option string :=
  match s with
  | EmptyString => if after_digit then Some EmptyString else None
  | String c s' =>
      if is_digit c then String c <$> int_digits true s'
      else if bool_decide (c = "_"%char) && after_digit then int_digits false s'
      else None
  end.

(** [int(s)] for a token [s] of word characters. *)
Definition py_int (s : string) : result Z :=
  match int_digits false s ≫= NilEmpty.uint_of_string with
  | Some d => Ok (Z.of_uint d)
  | None => Raise (ValueError ("invalid literal for int() with base 10: '" +:+ s +:+ "'"))
  end.

(** [str(z)] for an integer [z]. *)
Definition str (z : Z) : string := NilZero.string_of_int (Z.to_int z).

Definition ascii_lowercase : list ascii := list_ascii_of_string "abcdefghijklmnopqrstuvwxyz".

(** [l[0:stop]]: a negative [stop] counts from the end. *)
Definition slice_to {A : Type} (l : list A) (stop : Z) : list A :=
  let n := Z.of_nat (length l) in
  take (Z.to_nat (if (stop <? 0)%Z then Z.max (n + stop) 0 else Z.min stop n)) l.

(** [[name + c for c in string.ascii_lowercase[0:frag]]] *)
Definition sub_names (name : string) (frag : Z) : list string :=
  map (fun c => name +:+ String c "") (slice_to ascii_lowercase frag).

(** ** Residue ranges *)

(** [for i, n in enumerate(names): res_dict[n] = "same mass as resid " + str(start + i)];
    [i] is the index of the head of [names]. *)
Fixpoint set_same_mass (res_dict : list (string * string)) (start i : Z)
    (names : list string) : list (string * string) :=
  match names with
  | [] => res_dict
  | n :: names' =>
      set_same_mass (dict_set res_dict n ("same mass as resid " +:+ str (start + i)))
        start (i + 1) names'
  end.

Definition resid_range (start stop : Z) : string :=
  "resid " +:+ str start +:+ "-" +:+ str (stop - 1).

(** The loop of [res_dict_from_datafile] over the tokens still held by the
    iterator [it]; a [next(it)] on the exhausted iterator raises
    [StopIteration]. *)
Fixpoint datafile_loop (it : list string) (idx : Z)
    (res_dict : list (string * string)) : result (list (string * string)) :=
  match it with
  | [] => Ok res_dict
  | num :: it1 =>
      match it1 with
      | [] => Raise StopIteration
      | name :: it2 =>
          if isnumeric name then
            frag ← py_int name;
            match it2 with
            | [] => Raise StopIteration
            | name' :: it3 =>
                let names := sub_names name' frag in
                let start := idx in
                n ← py_int num;
                let idx := idx + n * frag in
                datafile_loop it3 idx (set_same_mass res_dict start 0 names)
            end
          else
            let start := idx in
            n ← py_int num;
            let idx := idx + n in
            let stop := idx in
            datafile_loop it2 idx (dict_set res_dict name (resid_range start stop))
      end
  end.

Definition generator_marker : string :=
  "Generated by pymatgen.io.lammps.data.LammpsData" +:+ String "010"%char "".

Definition format_error : exn :=
  ValueError "The LAMMPS data file should be generated by pymatgen.io.lammps.data.".

(** [lines[i]] *)
Definition line_at (lines : list string) (i : nat) : result string :=
  match lines !! i with
  | Some l => Ok l
  | None => Raise IndexError
  end.

(** [lines] is what [f.readlines()] returns for the file. *)
Definition res_dict_from_datafile (lines : list string) : result (list (string * string)) :=
  l0 ← line_at lines 0;
  if bool_decide (l0 = generator_marker) then
    l1 ← line_at lines 1;
    if startswith_hash l1 then datafile_loop (findall_word l1) 1 []
    else Raise format_error
  else Raise format_error.

(** The attributes of a [CombinedData] object the function reads; [frags]
    is [None] when the object has no such attribute. *)
Record CombinedData : Type := {
  names : list string;
  nums : list Z;
  frags : option (list Z)
}.

Fixpoint lammpsdata_frag_loop (groups : list (string * Z * Z)) (idx : Z)
    (res_dict : list (string * string)) : list (string * string) :=
  match groups with
  | [] => res_dict
  | (name, num, frag) :: groups' =>
      if bool_decide (frag = 1) then
        let start := idx in
        let idx := idx + num in
        let stop := idx in
        lammpsdata_frag_loop groups' idx (dict_set res_dict name (resid_range start stop))
      else
        let names := sub_names name frag in
        let start := idx in
        let idx := idx + num * frag in
        lammpsdata_frag_loop groups' idx (set_same_mass res_dict start 0 names)
  end.

Fixpoint lammpsdata_plain_loop (groups : list (string * Z)) (idx : Z)
    (res_dict : list (string * string)) : list (string * string) :=
  match groups with
  | [] => res_dict
  | (name, num) :: groups' =>
      let start := idx in
      let idx := idx + num in
      let stop := idx in
      lammpsdata_plain_loop groups' idx (dict_set res_dict name (resid_range start stop))
  end.

Definition res_dict_from_lammpsdata (lammps_data : CombinedData) : list (string * string) :=
  match frags lammps_data with
  | Some fs =>
      lammpsdata_frag_loop (zip (zip (names lammps_data) (nums lammps_data)) fs) 1 []
  | None =>
      lammpsdata_plain_loop (zip (names lammps_data) (nums lammps_data)) 1 []
  end.

(** ** Residues to selections *)

Section Selection.
(** The universe answers a selection expression with an atom group;
    groups compare with [==].  An expression the selection parser
    rejects is outside the model. *)
Context {AtomGroup : Type} `{EqDecision AtomGroup}.
Variable select_atoms : string -> AtomGroup.

Definition same_resid (val : string) : string :=
  "same resid as (" +:+ val +:+ ")".

(** The loop of [res_dict_from_select_dict] over [select_dict.items()]. *)
Fixpoint residue_loop (items : list (string * string)) (saved_select : list AtomGroup)
    (res_dict : list (string * string)) : list (string * string) :=
  match items with
  | [] => res_dict
  | (key, val) :: items' =>
      let res_select := same_resid val in
      let res_group := select_atoms res_select in
      if bool_decide (key ∈ ["cation"; "anion"])
         || negb (bool_decide (res_group ∈ saved_select))
      then residue_loop items' (saved_select ++ [res_group])
             (dict_set res_dict key res_select)
      else residue_loop items' saved_select res_dict
  end.

Definition res_dict_from_select_dict (select_dict : list (string * string))
    : list (string * string) :=
  let res_dict := residue_loop select_dict [] [] in
  match dict_get res_dict "cation", dict_get res_dict "anion" with
  | Some c, Some a =>
      if bool_decide (select_atoms c = select_atoms a) then
        let res_dict := dict_del res_dict "anion" in
        dict_set (dict_del res_dict "cation") "salt" c
      else res_dict
  | _, _ => res_dict
  end.
End Selection.

(** ** Species classification *)

Record Atom : Type := {
  atom_name : string;
  atom_type : string;
  charge : Q
}.

(** A residue as the classifier reads it: its name, its atoms and the
    fragments [residue.atoms.fragments] reports. *)
Record Residue : Type := {
  resname : string;
  atoms : list Atom;
  fragments : list (list Atom)
}.

Definition Qgt_bool (x y : Q) : bool := negb (Qle_bool x y).

(** [np.sum] *)
Definition np_sum (l : list Q) : Q := foldl Qplus 0%Q l.

(** The first index of the extremum, scanning from index [i] with the best
    value [best] seen at [best_i]. *)
Fixpoint arg_from {A : Type} (better : A -> A -> bool) (best_i : nat) (best : A)
    (i : nat) (l : list A) : nat :=
  match l with
  | [] => best_i
  | x :: l' =>
      if better x best then arg_from better i x (S i) l'
      else arg_from better best_i best (S i) l'
  end.

Definition arg_first {A : Type} (better : A -> A -> bool) (what : string)
    (l : list A) : result nat :=
  match l with
  | [] => Raise (ValueError ("attempt to get " +:+ what +:+ " of an empty sequence"))
  | x :: l' => Ok (arg_from better 0%nat x 1%nat l')
  end.

Definition np_argmax (l : list Q) : result nat := arg_first Qgt_bool "argmax" l.
Definition np_argmin (l : list Q) : result nat :=
  arg_first (fun x y => Qgt_bool y x) "argmin" l.
Definition np_argmin_nat (l : list nat) : result nat :=
  arg_first (fun x y => (x <? y)%nat) "argmin" l.

(** One step of [np.unique(..., return_counts=True)]: count [t] in a list
    of (value, count) pairs kept in increasing order. *)
Fixpoint count_in (t : string) (l : list (string * nat)) : list (string * nat) :=
  match l with
  | [] => [(t, 1%nat)]
  | (t', n) :: l' =>
      match String.compare t t' with
      | Eq => (t', S n) :: l'
      | Lt => (t, 1%nat) :: l
      | Gt => (t', n) :: count_in t l'
      end
  end.

Definition np_unique_counts (l : list string) : list (string * nat) :=
  foldl (fun acc t => count_in t acc) [] l.

(** [np.unique(l)] *)
Definition np_unique (l : list string) : list string := map fst (np_unique_counts l).

(** [a[i]] for an index [i] inside the array *)
Definition item_at {A : Type} (l : list A) (i : nat) : result A :=
  match l !! i with
  | Some x => Ok x
  | None => Raise IndexError
  end.

Definition ion_name (base : string) (number : Z) : string :=
  if bool_decide (number = 0) then base else base +:+ "_" +:+ str number.

(** [extract_atom_from_ion]; the new [select_dict] is returned. *)
Definition extract_atom_from_ion (positive : bool) (ion : list Atom)
    (select_dict : list (string * string)) (number : Z)
    : result (list (string * string)) :=
  let name := ion_name (if positive then "cation" else "anion") number in
  let types := map atom_type ion in
  match types with
  | [t] => Ok (dict_set select_dict name ("type " +:+ t))
  | _ =>
      i ← (if positive then np_argmax else np_argmin) (map charge ion);
      center ← item_at ion i;
      let unique_types := np_unique_counts types in
      j ← np_argmin_nat (map snd unique_types);
      uni_center ← item_at (map fst unique_types) j;
      if bool_decide (atom_type center = uni_center) then
        Ok (dict_set select_dict name ("type " +:+ uni_center))
      else
        let select_dict :=
          dict_set select_dict (name +:+ "_" +:+ atom_name center +:+ atom_type center)
            ("type " +:+ atom_type center) in
        Ok (dict_set select_dict name ("type " +:+ uni_center))
  end.

(** [extract_atom_from_molecule] *)
Definition extract_atom_from_molecule (resname : string) (molecule : list Atom)
    (select_dict : list (string * string)) (number : Z)
    : result (list (string * string)) :=
  let resname := if (0 <? number)%Z then resname +:+ "_" +:+ str number else resname in
  i ← np_argmin (map charge molecule);
  neg_center ← item_at molecule i;
  Ok (dict_set select_dict resname ("type " +:+ atom_type neg_center)).

Definition residue_charge (r : Residue) : Q := np_sum (map charge (atoms r)).

Definition pos_charge (c : Q) : bool := Qgt_bool c (1 # 1000).
Definition neg_charge (c : Q) : bool := Qgt_bool (- (1 # 1000)) c.

(** The loop over the two fragments of an ion pair; [i] is the index of
    the head of [frags]. *)
Fixpoint pair_loop (resname : string) (frags : list (list Atom)) (i : Z)
    (select_dict : list (string * string)) : result (list (string * string)) :=
  match frags with
  | [] => Ok select_dict
  | frag :: frags' =>
      let c := np_sum (map charge frag) in
      select_dict' ←
        (if pos_charge c then extract_atom_from_ion true frag select_dict 0
         else if neg_charge c then extract_atom_from_ion false frag select_dict 0
         else extract_atom_from_molecule resname frag select_dict (i + 1));
      pair_loop resname frags' (i + 1) select_dict'
  end.

(** The loop over the fragments of a cluster, with its three counters. *)
Fixpoint cluster_loop (resname : string) (frags : list (list Atom))
    (cation_number anion_number molecule_number : Z)
    (select_dict : list (string * string)) : result (list (string * string)) :=
  match frags with
  | [] => Ok select_dict
  | frag :: frags' =>
      let c := np_sum (map charge frag) in
      if pos_charge c then
        select_dict' ← extract_atom_from_ion true frag select_dict cation_number;
        cluster_loop resname frags' (cation_number + 1) anion_number molecule_number
          select_dict'
      else if neg_charge c then
        select_dict' ← extract_atom_from_ion false frag select_dict anion_number;
        cluster_loop resname frags' cation_number (anion_number + 1) molecule_number
          select_dict'
      else
        select_dict' ← extract_atom_from_molecule resname frag select_dict molecule_number;
        cluster_loop resname frags' cation_number anion_number (molecule_number + 1)
          select_dict'
  end.

(** The body of the loop of [select_dict_from_resname] for the residue
    picked for [resname]. *)
Definition classify_residue (resname : string) (residue : Residue)
    (select_dict : list (string * string)) : result (list (string * string)) :=
  if np_isclose (residue_charge residue) 0 (1 # 100000) then
    if bool_decide (length (fragments residue) = 2%nat) then
      pair_loop resname (fragments residue) 0 select_dict
    else if bool_decide (2 ≤ length (fragments residue))%nat then
      cluster_loop resname (fragments residue) 1 1 1 select_dict
    else extract_atom_from_molecule resname (atoms residue) select_dict 0
  else if Qgt_bool (residue_charge residue) 0 then
    extract_atom_from_ion true (atoms residue) select_dict 0
  else extract_atom_from_ion false (atoms residue) select_dict 0.

(** [u.select_atoms("resname " + resname).residues[0]]: the first residue
    of that name that has atoms.  Residue names are plain words: the
    wildcards of the selection language are outside the model. *)
Definition first_residue (u : list Residue) (rn : string) : result Residue :=
  match filter (fun r => resname r = rn ∧ atoms r ≠ []) u with
  | r :: _ => Ok r
  | [] => Raise IndexError
  end.

Fixpoint resname_loop (u : list Residue) (resnames : list string)
    (select_dict : list (string * string)) : result (list (string * string)) :=
  match resnames with
  | [] => Ok select_dict
  | rn :: resnames' =>
      if bool_decide (rn = "") then resname_loop u resnames' select_dict
      else
        residue ← first_residue u rn;
        select_dict' ← classify_residue rn residue select_dict;
        resname_loop u resnames' select_dict'
  end.

(** A universe is the list of its residues. *)
Definition select_dict_from_resname (u : list Residue) : result (list (string * string)) :=
  resname_loop u (np_unique (map resname u)) [].

(** ** Assigning residue names *)

Section Assign.
(** [select_residues resnames val] lists the indices of the residues of
    [u.select_atoms(val)], in a universe whose residues carry the names
    [resnames]. *)
Variable select_residues : list string -> string -> list nat.

(** [res_names[res_names == ""] = key] on the residues of the group,
    written back to the universe. *)
Definition assign_group (key : string) (group : list nat) (resnames : list string)
    : list string :=
  imap (fun i name =>
          if bool_decide (i ∈ group) && bool_decide (name = "") then key else name)
       resnames.

(** The loop of [assign_resname] over [res_dict.items()]. *)
Fixpoint assign_loop (items : list (string * string)) (resnames : list string)
    : list string :=
  match items with
  | [] => resnames
  | (key, val) :: items' =>
      assign_loop items' (assign_group key (select_residues resnames val) resnames)
  end.

(** [resnames] holds the names the residues of [u] carry when the function
    is called.  [u.add_TopologyAttr("resname")] replaces every one of them
    by the empty string; the loop runs on these names, and the names it
    leaves are returned. *)
Definition assign_resname (resnames : list string) (res_dict : list (string * string))
    : list string :=
  let resnames := replicate (length resnames) "" in
  assign_loop res_dict resnames.
End Assign.

(** ** Auxiliary notions used in the statements *)

(** What the inner loop of [lmp_mass_to_name] leaves in [atoms] for a row
    of mass [m]: each close item, in turn, is written under the row. *)
Definition record_matches (m : Q) (row : Z) (items : list (string * Q))
    (atoms : list (Z * string)) : list (Z * string) :=
  foldl (fun atoms item =>
           if isclose m item.2 (1 # 100) then dict_set atoms row item.1 else atoms)
        atoms items.

(** A token [int()] accepts. *)
Definition is_int_literal (s : string) : bool :=
  match py_int s with
  | Ok _ => true
  | Raise _ => false
  end.

(** The tokens of a header line come in groups: a count, an optional
    numeral, a label. *)
Fixpoint groups_ok (tokens : list string) : bool :=
  match tokens with
  | [] => true
  | num :: tokens1 =>
      match tokens1 with
      | [] => false
      | name :: tokens2 =>
          if isnumeric name then
            match tokens2 with
            | [] => false
            | _ :: tokens3 => is_int_literal num && groups_ok tokens3
            end
          else is_int_literal num && groups_ok tokens2
      end
  end.

(** A group of molecules as a header line and a [CombinedData] object
    both describe it: how many molecules, the fragment multiplicity when
    one is given, and the label. *)
Record Group : Type := {
  g_count : Z;
  g_frag : option Z;
  g_label : string
}.

(** The tokens that write a group in the header line. *)
Definition group_tokens (g : Group) : list string :=
  match g_frag g with
  | None => [str (g_count g); g_label g]
  | Some f => [str (g_count g); str f; g_label g]
  end.

Definition header_tokens (gs : list Group) : list string :=
  concat (map group_tokens gs).

(** The [CombinedData] attributes that hold the same groups; a group
    without multiplicity has the entry 1 in [frags]. *)
Definition combined_of (gs : list Group) : CombinedData :=
  {| names := map g_label gs;
     nums := map g_count gs;
     frags := Some (map (fun g => default 1 (g_frag g)) gs) |}.

(** The same for an object without the [frags] attribute. *)
Definition combined_plain_of (gs : list Group) : CombinedData :=
  {| names := map g_label gs; nums := map g_count gs; frags := None |}.

(** The groups on which the two readers are compared: a natural count; a
    multiplicity, when written, that is a natural number other than 1; a
    label that is not itself a numeral when no multiplicity precedes it. *)
Definition group_wf (g : Group) : Prop :=
  (0 ≤ g_count g)%Z
  ∧ match g_frag g with
    | None => isnumeric (g_label g) = false
    | Some f => (0 ≤ f)%Z ∧ f ≠ 1
    end.

(** The first two lines of a file are the preamble the parser expects. *)
Definition conforming (l0 l1 : string) : Prop :=
  l0 = generator_marker ∧ startswith_hash l1 = true.

(** [x], at index [i] of [l], is beaten by no element of [l] and beats
    all those that precede it. *)
Definition first_best {A : Type} (better : A → A → bool) (l : list A) (i : nat) (x : A)
    : Prop :=
  l !! i = Some x
  ∧ (∀ y, y ∈ l → better y x = false)
  ∧ (∀ j y, (j < i)%nat → l !! j = Some y → better x y = true).

(** The comparison that [np.argmax] (for a cation) or [np.argmin]
    (otherwise) makes between charges. *)
Definition charge_better (positive : bool) : Q → Q → bool :=
  if positive then Qgt_bool else fun x y => Qgt_bool y x.

(** The atom at index [i] is the extremal-charge atom of [ion]: of maximal
    charge for a cation, of minimal charge for an anion or a molecule, and
    the first such atom. *)
Definition is_extremal (positive : bool) (ion : list Atom) (i : nat) (center : Atom)
    : Prop :=
  ion !! i = Some center
  ∧ (∀ a, a ∈ ion →
       if positive then (charge a <= charge center)%Q
       else (charge center <= charge a)%Q)
  ∧ (∀ j a, (j < i)%nat → ion !! j = Some a →
       if positive then (charge a < charge center)%Q
       else (charge center < charge a)%Q).

(** The order of the pairs [np.unique] returns: by value. *)
Definition key_lt (x y : string * nat) : Prop := String.compare x.1 y.1 = Lt.

(** How many atoms have the type [t]. *)
Definition count_type (t : string) (types : list string) : nat :=
  length (filter (fun x => x = t) types).

(** [t] is the rarest type: of minimal population, and the least such type
    in the order of strings. *)
Definition is_rarest (types : list string) (t : string) : Prop :=
  t ∈ types
  ∧ ∀ t', t' ∈ types →
      (count_type t types ≤ count_type t' types)%nat
      ∧ (count_type t' types = count_type t types → String.leb t t' = true).

(** [d'] has at least the keys of [d]. *)
Definition extends (d d' : list (string * string)) : Prop :=
  ∀ k, k ∈ dict_keys d → k ∈ dict_keys d'.

(** Every residue has atoms and no fragment is empty. *)
Definition universe_wf (u : list Residue) : Prop :=
  Forall (fun r => atoms r ≠ [] ∧ Forall (fun f => f ≠ []) (fragments r)) u.

(** The sum of a list of integers. *)
Definition sumZ (l : list Z) : Z := foldr Z.add 0 l.

(** The ranges the readers give to groups without multiplicity, from the
    cursor [idx] on. *)
Fixpoint plain_ranges (idx : Z) (groups : list (string * Z)) : list (string * string) :=
  match groups with
  | [] => []
  | (name, num) :: groups' =>
      (name, resid_range idx (idx + num)) :: plain_ranges (idx + num) groups'
  end.

(** The role the classifier gives a fragment, from its net charge. *)
Definition is_cation (f : list Atom) : bool := pos_charge (np_sum (map charge f)).
Definition is_anion (f : list Atom) : bool :=
  negb (pos_charge (np_sum (map charge f))) && neg_charge (np_sum (map charge f)).
Definition is_molecule (f : list Atom) : bool :=
  negb (pos_charge (np_sum (map charge f))) && negb (neg_charge (np_sum (map charge f))).

(** How many of the fragments before index [i] have the role [role]. *)
Definition count_before (role : list Atom → bool) (frags : list (list Atom)) (i : nat)
    : Z :=
  Z.of_nat (length (List.filter role (take i frags))).

(** The key under which the cluster branch records the fragment [f] found
    at index [i]. *)
Definition cluster_key (rn : string) (frags : list (list Atom)) (i : nat)
    (f : list Atom) : string :=
  if is_cation f then "cation_" +:+ str (1 + count_before is_cation frags i)
  else if is_anion f then "anion_" +:+ str (1 + count_before is_anion frags i)
  else rn +:+ "_" +:+ str (1 + count_before is_molecule frags i).

(** The key under which the pair branch records the fragment [f] found at
    index [i]. *)
Definition pair_key (rn : string) (i : Z) (f : list Atom) : string :=
  if is_cation f then "cation"
  else if is_anion f then "anion"
  else rn +:+ "_" +:+ str (i + 1).

(** The key under which a fragment of role and serial number given by the
    counters is recorded. *)
Definition counted_key (rn : string) (cn an mn : Z) (frags : list (list Atom)) (i : nat)
    (f : list Atom) : string :=
  if is_cation f then ion_name "cation" (cn + count_before is_cation frags i)
  else if is_anion f then ion_name "anion" (an + count_before is_anion frags i)
  else if (0 <? mn + count_before is_molecule frags i)%Z
       then rn +:+ "_" +:+ str (mn + count_before is_molecule frags i)
       else rn.

(** Every expression of [d] is "type T" for the type T of an atom of [S]. *)
Definition typed_by (S : list Atom) (d : list (string * string)) : Prop :=
  ∀ k x, (k, x) ∈ d → ∃ a, a ∈ S ∧ x = "type " +:+ atom_type a.

(** The atoms of a universe: those of its residues and of their
    fragments. *)
Definition universe_atoms (u : list Residue) : list Atom :=
  concat (map (fun r => atoms r ++ concat (fragments r)) u).

(** The entries the readers give to the sub-names of a branched group:
    the sub-name at index [i + j] goes with the residue [start + i + j]. *)
Fixpoint mass_entries (start i : Z) (names : list string) : list (string * string) :=
  match names with
  | [] => []
  | n :: names' =>
      (n, "same mass as resid " +:+ str (start + i)) :: mass_entries start (i + 1) names'
  end.

(** Classifying the residue [r'] picked for the name [rn'] leaves the
    entry of the key [k], or its absence, as it was. *)
Definition leaves_key (rn' : string) (r' : Residue) (k : string) : Prop :=
  ∀ d d', classify_residue rn' r' d = Ok d' → dict_get d' k = dict_get d k.

(** ** Sample data *)

(** Modelled from the spec: the table [MM_of_Elements] is defined in the
    package initialiser, outside [dict_utils.py]; the spec calls it a static
    mapping from element symbol to standard atomic mass.  This excerpt
    lists a few elements with their standard atomic masses, in periodic
    order; it serves to evaluate the functions on concrete input. *)
Definition MM_excerpt : list (string * Q) :=
  [ ("H", 1.00794%Q); ("He", 4.002602%Q); ("Li", 6.941%Q); ("C", 12.0107%Q);
    ("N", 14.0067%Q); ("O", 15.9994%Q); ("F", 18.9984032%Q);
    ("Pb", 207.2%Q); ("Bi", 208.9804%Q); ("Po", 208.9824%Q); ("At", 209.9871%Q) ].

Definition Li_atom : Atom := {| atom_name := "Li1"; atom_type := "Li"; charge := 1 |}.
Definition Cl_atom : Atom := {| atom_name := "Cl1"; atom_type := "Cl"; charge := -1 |}.
Definition O_atom : Atom := {| atom_name := "OW"; atom_type := "O"; charge := - (0.8) |}.
Definition H1_atom : Atom := {| atom_name := "HW1"; atom_type := "H"; charge := 0.4 |}.
Definition H2_atom : Atom := {| atom_name := "HW2"; atom_type := "H"; charge := 0.4 |}.

(** An ion pair held in one residue, a water molecule, a bare cation. *)
Definition pair_residue (rn : string) : Residue :=
  {| resname := rn; atoms := [Li_atom; Cl_atom]; fragments := [[Li_atom]; [Cl_atom]] |}.
Definition water_residue (rn : string) : Residue :=
  {| resname := rn; atoms := [O_atom; H1_atom; H2_atom];
     fragments := [[O_atom; H1_atom; H2_atom]] |}.
Definition cation_residue (rn : string) : Residue :=
  {| resname := rn; atoms := [Li_atom]; fragments := [[Li_atom]] |}.

(** * Properties *)

(** ** Dictionaries *)

Module PyDictFacts.
Section Facts.
Context {K V : Type} `{EqDecision K}.
Implicit Types (d : list (K * V)) (k : K) (v : V).

Lemma dict_keys_set d k v :
  ∀ k0, k0 ∈ dict_keys (dict_set d k v) ↔ k0 = k ∨ k0 ∈ dict_keys d.
Proof.
  unfold dict_keys. induction d as [|[k' v'] d IH]; intros k0; simpl.
  - rewrite list_elem_of_singleton, elem_of_nil. tauto.
  - destruct (decide (k' = k)) as [->|Hne]; simpl.
    + rewrite !elem_of_cons. tauto.
    + rewrite !elem_of_cons, IH. tauto.
Qed.

Lemma dict_get_set_eq d k v : dict_get (dict_set d k v) k = Some v.
Proof.
  induction d as [|[k' v'] d IH]; simpl.
  - by rewrite decide_True.
  - destruct (decide (k' = k)) as [->|Hne]; simpl.
    + by rewrite decide_True.
    + by rewrite decide_False.
Qed.

Lemma dict_get_set_ne d k v k0 :
  k0 ≠ k → dict_get (dict_set d k v) k0 = dict_get d k0.
Proof.
  intros Hne. induction d as [|[k' v'] d IH]; simpl.
  - by rewrite decide_False.
  - destruct (decide (k' = k)) as [->|Hne']; simpl.
    + by rewrite !decide_False.
    + destruct (decide (k' = k0)); auto.
Qed.

Lemma dict_get_Some_keys d k :
  k ∈ dict_keys d ↔ is_Some (dict_get d k).
Proof.
  unfold dict_keys. induction d as [|[k' v'] d IH]; simpl.
  - split; [intros H; inversion H | intros [? [=]]].
  - destruct (decide (k' = k)) as [->|Hne].
    + split; eauto. intros _. left.
    + rewrite elem_of_cons, IH. split; [intros [?|?]; congruence || done | auto].
Qed.

Lemma dict_set_NoDup d k v :
  NoDup (dict_keys d) → NoDup (dict_keys (dict_set d k v)).
Proof.
  unfold dict_keys. induction d as [|[k' v'] d IH]; simpl; intros Hnd.
  - apply NoDup_singleton.
  - inversion Hnd as [|? ? Hnotin Hnd']; subst.
    destruct (decide (k' = k)) as [->|Hne]; simpl.
    + by constructor.
    + constructor; [|by apply IH].
      intros Hin. apply (dict_keys_set d k v k') in Hin.
      destruct Hin as [?|?]; [congruence | done].
Qed.

Lemma dict_keys_del d k :
  NoDup (dict_keys d) →
  ∀ k0, k0 ∈ dict_keys (dict_del d k) ↔ k0 ≠ k ∧ k0 ∈ dict_keys d.
Proof.
  unfold dict_keys. induction d as [|[k' v'] d IH]; simpl; intros Hnd k0.
  - rewrite elem_of_nil. tauto.
  - inversion Hnd as [|? ? Hnotin Hnd']; subst.
    destruct (decide (k' = k)) as [->|Hne]; simpl.
    + rewrite elem_of_cons. split.
      * intros Hin. split; [intros ->; done | by right].
      * intros [Hne [?|?]]; done.
    + rewrite !elem_of_cons, (IH Hnd'). split.
      * intros [->|[? ?]]; auto.
      * intros [? [->|?]]; auto.
Qed.

Lemma dict_del_NoDup d k :
  NoDup (dict_keys d) → NoDup (dict_keys (dict_del d k)).
Proof.
  unfold dict_keys. induction d as [|[k' v'] d IH]; simpl; intros Hnd; [done|].
  inversion Hnd as [|? ? Hnotin Hnd']; subst.
  destruct (decide (k' = k)) as [->|Hne]; simpl; [done|].
  constructor; [|by apply IH].
  intros Hin. apply (dict_keys_del d k Hnd') in Hin. by destruct Hin.
Qed.

Lemma dict_get_del_ne d k k0 :
  k0 ≠ k → dict_get (dict_del d k) k0 = dict_get d k0.
Proof.
  intros Hne. induction d as [|[k' v'] d IH]; simpl; [done|].
  destruct (decide (k' = k)) as [->|Hne']; simpl.
  - by rewrite decide_False.
  - destruct (decide (k' = k0)); auto.
Qed.
End Facts.
End PyDictFacts.
Import PyDictFacts.

(** ** Mass identification *)

(** For masses of ordinary size the relative tolerance plays no part:
    the test is the one of the absolute tolerance. *)
Lemma isclose_abs_tol (a b tol : Q) :
  (rel_tol_default * Qabs a <= tol)%Q → (rel_tol_default * Qabs b <= tol)%Q →
  isclose a b tol = true ↔ (Qabs (b - a) <= tol)%Q.
Proof.
  intros Ha Hb. unfold isclose. rewrite !orb_true_iff, !Qle_bool_iff.
  assert (Hr : ∀ x, (Qabs (rel_tol_default * x) == rel_tol_default * Qabs x)%Q).
  { intros x. by rewrite Qabs_Qmult. }
  rewrite !Hr. split; [|auto].
  intros [[H|H]|H]; [| |done]; eapply Qle_trans; eauto.
Qed.

Section MassFacts.
Variable table : list (string * Q).

Lemma append_matches_spec tol names mass :
  append_matches table tol names mass = names ++ map fst (close_items table tol mass).
Proof.
  unfold append_matches, close_items. revert names.
  induction table as [|item items IH]; intros names; simpl.
  - by rewrite app_nil_r.
  - rewrite IH, filter_cons. destruct (isclose mass item.2 tol) eqn:E.
    + rewrite decide_True by done. simpl. by rewrite <- app_assoc.
    + rewrite decide_False by congruence. done.
Qed.

Lemma collect_names_spec tol acc masses :
  foldl (append_matches table tol) acc masses
  = acc ++ concat (map (fun m => map fst (close_items table tol m)) masses).
Proof.
  revert acc. induction masses as [|m masses IH]; intros acc; simpl.
  - by rewrite app_nil_r.
  - by rewrite IH, append_matches_spec, <- app_assoc.
Qed.

(** The number of names collected is the total number of matches. *)
Lemma collect_names_length masses :
  length (foldl (append_matches table (1 # 10)) [] masses)
  = sum_list (map (fun m => length (close_items table (1 # 10) m)) masses).
Proof.
  rewrite collect_names_spec. simpl.
  induction masses as [|m masses IH]; simpl; [done|].
  by rewrite length_app, length_map, IH.
Qed.

(** On return, the names are as many as the masses. *)
Lemma mass_to_name_length masses names :
  mass_to_name table masses = Ok names → length names = length masses.
Proof.
  unfold mass_to_name. case_decide as Hlen; [|done]. by intros [= <-].
Qed.

Lemma sum_list_ones (masses : list Q) (f : Q → nat) :
  Forall (fun m => f m = 1%nat) masses → sum_list (map f masses) = length masses.
Proof. induction 1 as [|m ms Hm _ IH]; simpl; [done|]. by rewrite Hm, IH. Qed.

Lemma sum_list_short (masses : list Q) (f : Q → nat) :
  Forall (fun m => (f m ≤ 1)%nat) masses →
  Exists (fun m => f m = 0%nat) masses →
  (sum_list (map f masses) < length masses)%nat.
Proof.
  intros Hle Hex. induction Hle as [|m ms Hm Hms IH]; [inversion Hex|].
  assert (Hall : (sum_list (map f ms) ≤ length ms)%nat).
  { clear -Hms. induction Hms as [|m' ms' ? ? IH']; simpl; lia. }
  inversion Hex as [? ? H0|? ? Hex']; subst; simpl; [lia|].
  specialize (IH Hex'). lia.
Qed.

(** X12.  [mass_to_name] fails on an array that holds a mass within 0.1 of
    no element, provided no mass of the array is within 0.1 of two
    elements. *)
Lemma mass_to_name_unmatched_fails masses :
  Forall (fun m => (length (close_items table (1 # 10) m) ≤ 1)%nat) masses →
  Exists (fun m => close_items table (1 # 10) m = []) masses →
  mass_to_name table masses = Raise (AssertionError "Invalid mass found.").
Proof.
  intros Hle Hex. unfold mass_to_name. rewrite collect_names_length.
  case_decide as Hlen; [|done]. exfalso.
  assert (Hz : Exists (fun m => length (close_items table (1 # 10) m) = 0%nat) masses).
  { eapply Exists_impl; [exact Hex|]. by intros m ->. }
  pose proof (sum_list_short masses _ Hle Hz) as Hlt. lia.
Qed.

(** X13.  [mass_to_name] fails on an array that holds a mass within 0.1 of
    two or more elements when every mass of the array is within 0.1 of at
    least one: an ambiguous mass is reported as invalid. *)
Lemma mass_to_name_ambiguous_fails masses :
  Forall (fun m => (1 ≤ length (close_items table (1 # 10) m))%nat) masses →
  Exists (fun m => (2 ≤ length (close_items table (1 # 10) m))%nat) masses →
  mass_to_name table masses = Raise (AssertionError "Invalid mass found.").
Proof.
  intros Hge Hex. unfold mass_to_name. rewrite collect_names_length.
  case_decide as Hlen; [|done]. exfalso.
  assert (length masses < sum_list
            (map (fun m => length (close_items table (1 # 10) m)) masses))%nat; [|lia].
  clear Hlen. induction Hge as [|m ms Hm Hms IH]; [inversion Hex|].
  assert (Hall : (length ms ≤ sum_list
            (map (fun m => length (close_items table (1 # 10) m)) ms))%nat).
  { clear -Hms. induction Hms as [|m' ms' ? ? IH']; simpl; lia. }
  inversion Hex as [? ? H2|? ? Hex']; subst; simpl; [lia|].
  specialize (IH Hex'). lia.
Qed.

Lemma find_close_items tol m :
  List.find (fun item => isclose m item.2 tol) table = head (close_items table tol m).
Proof.
  unfold close_items. induction table as [|item items IH]; simpl; [done|].
  rewrite filter_cons. destruct (isclose m item.2 tol) eqn:E.
  - by rewrite decide_True.
  - by rewrite decide_False by congruence.
Qed.
End MassFacts.

Section LmpFacts.
Variable table : list (string * Q).

Lemma filter_absent_row (df : list (Z * Q)) row :
  row ∉ map fst df → filter (fun r : Z * Q => r.1 = row) df = [].
Proof.
  induction df as [|[r x] df IH]; simpl; intros Hnotin; [done|].
  apply not_elem_of_cons in Hnotin as [Hne Hnotin].
  rewrite filter_cons, decide_False by (simpl; congruence). by apply IH.
Qed.

Lemma df_mass_unique (df : list (Z * Q)) row m :
  NoDup (map fst df) → (row, m) ∈ df → df_mass df row = Ok m.
Proof.
  intros Hnd Hin. unfold df_mass.
  assert (Hf : filter (fun r : Z * Q => r.1 = row) df = [(row, m)]); [|by rewrite Hf].
  induction df as [|[r x] df IH]; [by apply elem_of_nil in Hin|].
  simpl in Hnd. apply NoDup_cons in Hnd as [Hnotin Hnd].
  rewrite filter_cons. simpl. apply elem_of_cons in Hin as [[= <- <-]|Hin].
  - rewrite decide_True by done. f_equal. by apply filter_absent_row.
  - rewrite decide_False; [by apply IH|].
    intros ->. apply Hnotin. by apply (list_elem_of_fmap_2 fst _ (_, m)).
Qed.

Lemma lmp_items_spec df row m items atoms :
  df_mass df row = Ok m →
  lmp_items df row items atoms = Ok (record_matches m row items atoms).
Proof.
  intros Hm. revert atoms. induction items as [|item items IH]; intros atoms; simpl.
  - done.
  - rewrite Hm. simpl. apply IH.
Qed.

Lemma record_matches_keys m row items atoms k :
  k ∈ dict_keys (record_matches m row items atoms)
  ↔ k ∈ dict_keys atoms
    ∨ (k = row ∧ filter (fun item => isclose m item.2 (1 # 100) = true) items ≠ []).
Proof.
  unfold record_matches. revert atoms.
  induction items as [|item items IH]; intros atoms; simpl.
  - rewrite filter_nil. tauto.
  - rewrite IH, filter_cons. destruct (isclose m item.2 (1 # 100)) eqn:E.
    + rewrite decide_True by done. rewrite dict_keys_set. split.
      * intros [[->|?]|[-> ?]]; auto.
      * intros [?|[-> ?]]; auto.
    + rewrite decide_False by congruence. tauto.
Qed.

Lemma record_matches_get m row items atoms :
  dict_get (record_matches m row items atoms) row
  = match last (filter (fun item => isclose m item.2 (1 # 100) = true) items) with
    | Some item => Some item.1
    | None => dict_get atoms row
    end.
Proof.
  unfold record_matches. revert atoms.
  induction items as [|item items IH]; intros atoms; simpl; [done|].
  rewrite IH, filter_cons. destruct (isclose m item.2 (1 # 100)) eqn:E.
  - rewrite decide_True by done.
    destruct (filter _ items) as [|i' l'] eqn:Hf.
    + simpl. apply dict_get_set_eq.
    + rewrite last_cons_cons.
      destruct (last (i' :: l')) eqn:Hl; [done|]. by apply last_None in Hl.
  - by rewrite decide_False by congruence.
Qed.

Lemma record_matches_get_ne m row items atoms k :
  k ≠ row → dict_get (record_matches m row items atoms) k = dict_get atoms k.
Proof.
  intros Hne. unfold record_matches. revert atoms.
  induction items as [|item items IH]; intros atoms; simpl; [done|].
  rewrite IH. destruct (isclose m item.2 (1 # 100)); [|done].
  by apply dict_get_set_ne.
Qed.

Lemma lmp_rows_total df rows atoms :
  NoDup (map fst df) → rows ⊆ map fst df →
  ∃ atoms', lmp_rows table df rows atoms = Ok atoms'.
Proof.
  intros Hnd. revert atoms. induction rows as [|row rows IH]; intros atoms Hsub; simpl.
  - eauto.
  - assert (Hrow : row ∈ map fst df) by (apply Hsub; left).
    apply list_elem_of_fmap in Hrow as ([r m] & -> & Hin). simpl.
    rewrite (lmp_items_spec df r m) by by apply df_mass_unique. simpl.
    apply IH. intros x Hx. apply Hsub. by right.
Qed.

Lemma lmp_rows_keys df rows atoms atoms' k :
  NoDup (map fst df) → rows ⊆ map fst df →
  lmp_rows table df rows atoms = Ok atoms' →
  k ∈ dict_keys atoms'
  ↔ k ∈ dict_keys atoms
    ∨ (k ∈ rows ∧ ∃ m, (k, m) ∈ df ∧ close_items table (1 # 100) m ≠ []).
Proof.
  intros Hnd. revert atoms. induction rows as [|row rows IH]; intros atoms Hsub; simpl.
  - intros [= <-]. rewrite elem_of_nil. tauto.
  - assert (Hrow : row ∈ map fst df) by (apply Hsub; left).
    apply list_elem_of_fmap in Hrow as ([r m] & -> & Hin). simpl.
    rewrite (lmp_items_spec df r m) by by apply df_mass_unique. simpl.
    intros Hrows. rewrite (IH _ ltac:(intros x Hx; apply Hsub; by right) Hrows).
    rewrite record_matches_keys, elem_of_cons. fold (close_items table (1 # 100) m).
    split.
    + intros [[?|[-> Hne]]|[? ?]]; eauto 6.
    + intros [?|[[->|?] (m' & Hin' & Hne)]]; [auto| |eauto 6].
      left. right. split; [done|].
      assert (m' = m) as ->; [|done].
      pose proof (df_mass_unique df r m Hnd Hin) as H1.
      pose proof (df_mass_unique df r m' Hnd Hin') as H2. congruence.
Qed.

Lemma lmp_rows_get_notin df rows atoms atoms' k :
  NoDup (map fst df) → rows ⊆ map fst df → k ∉ rows →
  lmp_rows table df rows atoms = Ok atoms' →
  dict_get atoms' k = dict_get atoms k.
Proof.
  intros Hnd. revert atoms.
  induction rows as [|row rows IH]; intros atoms Hsub Hk; simpl.
  - by intros [= <-].
  - assert (Hrow : row ∈ map fst df) by (apply Hsub; left).
    apply list_elem_of_fmap in Hrow as ([r m] & -> & Hin). simpl.
    rewrite (lmp_items_spec df r m) by by apply df_mass_unique. simpl.
    intros Hrows. apply not_elem_of_cons in Hk as [Hne Hk].
    rewrite (IH _ ltac:(intros x Hx; apply Hsub; by right) Hk Hrows).
    by apply record_matches_get_ne.
Qed.

Lemma lmp_rows_get df rows atoms atoms' row m item :
  NoDup (map fst df) → rows ⊆ map fst df → NoDup rows → row ∈ rows →
  (row, m) ∈ df → last (close_items table (1 # 100) m) = Some item →
  lmp_rows table df rows atoms = Ok atoms' →
  dict_get atoms' row = Some item.1.
Proof.
  intros Hnd. revert atoms.
  induction rows as [|r rows IH]; intros atoms Hsub Hnd' Hrow Hin Hlast; simpl.
  - by apply elem_of_nil in Hrow.
  - apply NoDup_cons in Hnd' as [Hnotin Hnd'].
    assert (Hr : r ∈ map fst df) by (apply Hsub; left).
    apply list_elem_of_fmap in Hr as ([r' m'] & -> & Hin'). simpl in *.
    rewrite (lmp_items_spec df r' m') by by apply df_mass_unique. simpl.
    intros Hrows.
    assert (Hsub' : rows ⊆ map fst df) by (intros x Hx; apply Hsub; by right).
    apply elem_of_cons in Hrow as [->|Hrow].
    + rewrite (lmp_rows_get_notin df rows _ atoms' r' Hnd Hsub' Hnotin Hrows).
      assert (m' = m) as ->.
      { pose proof (df_mass_unique df r' m Hnd Hin) as H1.
        pose proof (df_mass_unique df r' m' Hnd Hin') as H2. congruence. }
      rewrite record_matches_get. unfold close_items in Hlast. by rewrite Hlast.
    + by apply (IH _ Hsub' Hnd' Hrow Hin Hlast Hrows).
Qed.
End LmpFacts.

(** *** The claims on [mass_to_name] and [lmp_mass_to_name] *)

(** C6.  The claim has [mass_to_name] fail whenever a mass of the array
    matches no element.  On the excerpt, the mass 208.9804 matches both Bi
    and Po and the mass 2.014 matches nothing: the names collected are as
    many as the masses, the assertion passes, and the call returns
    [Bi; Po] instead of failing. *)
Theorem mass_to_name_misses_unmatched_mass :
  close_items MM_excerpt (1 # 10) 2.014%Q = []
  ∧ mass_to_name MM_excerpt [208.9804%Q; 2.014%Q] = Ok ["Bi"; "Po"].
Proof. split; vm_compute; reflexivity. Qed.

Lemma concat_singletons (table : list (string * Q)) (masses : list Q) :
  Forall (fun m => length (close_items table (1 # 10) m) = 1%nat) masses →
  concat (map (fun m => map fst (close_items table (1 # 10) m)) masses)
  = map (fun m => default "" (fst <$> head (close_items table (1 # 10) m))) masses.
Proof.
  induction 1 as [|m ms Hm _ IH]; simpl; [done|].
  rewrite IH. destruct (close_items table (1 # 10) m) as [|item [|]]; done.
Qed.

(** C7, amended.  When every mass of the array is within 0.1 of exactly one
    element of the table, [mass_to_name] returns as many names as there are
    masses, and the i-th name is the symbol of the first element, in table
    order, within 0.1 of the i-th mass. *)
Theorem mass_to_name_unique_match (table : list (string * Q)) (masses : list Q) :
  Forall (fun m => length (close_items table (1 # 10) m) = 1%nat) masses →
  ∃ names, mass_to_name table masses = Ok names
    ∧ length names = length masses
    ∧ ∀ i m, masses !! i = Some m →
        ∃ item, List.find (fun item => isclose m item.2 (1 # 10)) table = Some item
                ∧ names !! i = Some item.1.
Proof.
  intros Hone. unfold mass_to_name.
  rewrite collect_names_length, (sum_list_ones masses _ Hone).
  rewrite decide_True by done. eexists. split; [done|].
  rewrite collect_names_spec. simpl. rewrite (concat_singletons table masses Hone).
  split; [by rewrite length_map|].
  intros i m Hi. rewrite find_close_items.
  rewrite Forall_lookup in Hone. specialize (Hone i m Hi).
  destruct (close_items table (1 # 10) m) as [|item [|]] eqn:Hc; try done.
  exists item. split; [done|].
  rewrite list_lookup_fmap, Hi. simpl. by rewrite Hc.
Qed.

Lemma mass_to_name_unique_match_witness :
  ∃ names, mass_to_name MM_excerpt [12.011%Q; 1.008%Q; 207.2%Q] = Ok names
    ∧ length names = 3%nat
    ∧ ∀ i m, [12.011%Q; 1.008%Q; 207.2%Q] !! i = Some m →
        ∃ item, List.find (fun item => isclose m item.2 (1 # 10)) MM_excerpt = Some item
                ∧ names !! i = Some item.1.
Proof.
  apply (mass_to_name_unique_match MM_excerpt [12.011%Q; 1.008%Q; 207.2%Q]).
  repeat (apply Forall_cons; split; [vm_compute; reflexivity|]). constructor.
Defined.

(** C7 as stated fails: 208.9804 is within 0.1 of an element of the
    excerpt (of two, Bi and Po), and [mass_to_name] raises instead of
    returning the first of them. *)
Lemma mass_to_name_first_match_counterexample :
  (∀ m, m ∈ [208.9804%Q] → ∃ item, item ∈ MM_excerpt ∧ isclose m item.2 (1 # 10) = true)
  ∧ List.find (fun item => isclose 208.9804%Q item.2 (1 # 10)) MM_excerpt
    = Some ("Bi", 208.9804%Q)
  ∧ mass_to_name MM_excerpt [208.9804%Q] = Raise (AssertionError "Invalid mass found.").
Proof.
  split; [|split; vm_compute; reflexivity].
  intros m Hm. apply list_elem_of_singleton in Hm as ->.
  exists ("Bi", 208.9804%Q). split; [|vm_compute; reflexivity].
  unfold MM_excerpt. rewrite !elem_of_cons. tauto.
Qed.

(** C8.  On a masses table whose index labels are pairwise distinct,
    [lmp_mass_to_name] returns, and the keys of the mapping are exactly the
    labels of the rows whose mass is within 0.01 of some element. *)
Theorem lmp_mass_to_name_keys (table : list (string * Q)) (df : list (Z * Q)) :
  NoDup (map fst df) →
  ∃ atoms, lmp_mass_to_name table df = Ok atoms
    ∧ ∀ row, row ∈ dict_keys atoms
        ↔ ∃ m, (row, m) ∈ df
               ∧ ∃ item, item ∈ table ∧ isclose m item.2 (1 # 100) = true.
Proof.
  intros Hnd. unfold lmp_mass_to_name.
  destruct (lmp_rows_total table df (map fst df) [] Hnd) as [atoms Hatoms]; [done|].
  exists atoms. split; [done|]. intros row.
  rewrite (lmp_rows_keys table df (map fst df) [] atoms row Hnd ltac:(done) Hatoms).
  unfold dict_keys at 1. simpl. rewrite elem_of_nil. split.
  - intros [[]|(_ & m & Hin & Hne)]. exists m. split; [done|].
    destruct (close_items table (1 # 100) m) as [|item l] eqn:Hc; [done|].
    exists item.
    assert (Hi : item ∈ close_items table (1 # 100) m) by (rewrite Hc; left).
    apply list_elem_of_filter in Hi. tauto.
  - intros (m & Hin & item & Hitem & Hclose). right. split.
    + by apply (list_elem_of_fmap_2 fst _ (row, m)).
    + exists m. split; [done|]. intros Hnil.
      assert (Hi : item ∈ close_items table (1 # 100) m)
        by by apply list_elem_of_filter.
      rewrite Hnil in Hi. by apply elem_of_nil in Hi.
Qed.

Lemma lmp_mass_to_name_keys_witness :
  ∃ atoms, lmp_mass_to_name MM_excerpt [(1, 12.011%Q); (2, 2.014%Q); (3, 15.999%Q)] = Ok atoms
    ∧ ∀ row, row ∈ dict_keys atoms
        ↔ ∃ m, (row, m) ∈ [(1, 12.011%Q); (2, 2.014%Q); (3, 15.999%Q)]
               ∧ ∃ item, item ∈ MM_excerpt ∧ isclose m item.2 (1 # 100) = true.
Proof.
  apply (lmp_mass_to_name_keys MM_excerpt [(1, 12.011%Q); (2, 2.014%Q); (3, 15.999%Q)]).
  apply (bool_decide_unpack _). vm_compute. exact I.
Defined.

(** C10.  A row whose mass is within 0.01 of elements of the table is
    mapped to the last of them in table order: each later match overwrites
    the earlier one, and nothing is raised. *)
Theorem lmp_mass_to_name_last_match (table : list (string * Q)) (df : list (Z * Q))
    (row : Z) (m : Q) (item : string * Q) :
  NoDup (map fst df) →
  (row, m) ∈ df →
  (1 < length (close_items table (1 # 100) m))%nat →
  last (close_items table (1 # 100) m) = Some item →
  ∃ atoms, lmp_mass_to_name table df = Ok atoms ∧ dict_get atoms row = Some item.1.
Proof.
  intros Hnd Hin _ Hlast. unfold lmp_mass_to_name.
  destruct (lmp_rows_total table df (map fst df) [] Hnd) as [atoms Hatoms]; [done|].
  exists atoms. split; [done|].
  eapply lmp_rows_get; eauto.
  by apply (list_elem_of_fmap_2 fst _ (row, m)).
Qed.

Lemma lmp_mass_to_name_last_match_witness :
  ∃ atoms, lmp_mass_to_name MM_excerpt [(1, 12.011%Q); (2, 208.98%Q)] = Ok atoms
    ∧ dict_get atoms 2 = Some "Po".
Proof.
  apply (lmp_mass_to_name_last_match MM_excerpt [(1, 12.011%Q); (2, 208.98%Q)]
           2 208.98%Q ("Po", 208.9824%Q)).
  - apply (bool_decide_unpack _). vm_compute. exact I.
  - apply list_elem_of_further, list_elem_of_here.
  - vm_compute. lia.
  - vm_compute. reflexivity.
Defined.

(** ** Integer literals *)

Lemma int_digits_of_uint (u : Decimal.uint) (b : bool) :
  u ≠ Decimal.Nil ∨ b = true →
  int_digits b (NilEmpty.string_of_uint u) = Some (NilEmpty.string_of_uint u).
Proof.
  revert b. induction u as [|u IH|u IH|u IH|u IH|u IH|u IH|u IH|u IH|u IH|u IH];
    intros b Hb; simpl.
  1: { destruct Hb as [?| ->]; done. }
  all: change (is_digit _) with true; simpl; by rewrite IH by auto.
Qed.

Lemma digits_of_uint (u : Decimal.uint) :
  forallb is_digit (list_ascii_of_string (NilEmpty.string_of_uint u)) = true.
Proof. induction u; simpl; auto. Qed.

Lemma str_nonneg (n : Z) :
  (0 ≤ n)%Z → ∃ u, u ≠ Decimal.Nil ∧ str n = NilEmpty.string_of_uint u ∧ Z.of_uint u = n.
Proof.
  intros Hn. destruct n as [|p|p]; [| |lia].
  - exists (Decimal.D0 Decimal.Nil). done.
  - exists (Pos.to_uint p). split; [apply DecimalPos.Unsigned.to_uint_nonnil|].
    split.
    + unfold str. simpl. unfold NilZero.string_of_uint.
      pose proof (DecimalPos.Unsigned.to_uint_nonnil p).
      by destruct (Pos.to_uint p).
    + apply (DecimalZ.of_to (Z.pos p)).
Qed.

(** [int(str(n)) == n] for a natural number [n]. *)
Lemma py_int_str (n : Z) : (0 ≤ n)%Z → py_int (str n) = Ok n.
Proof.
  intros Hn. destruct (str_nonneg n Hn) as (u & Hu & -> & <-).
  unfold py_int. rewrite int_digits_of_uint by auto. simpl.
  by rewrite NilEmpty.usu.
Qed.

(** [str(n).isnumeric()] for a natural number [n]. *)
Lemma isnumeric_str (n : Z) : (0 ≤ n)%Z → isnumeric (str n) = true.
Proof.
  intros Hn. destruct (str_nonneg n Hn) as (u & Hu & -> & _).
  unfold isnumeric. rewrite digits_of_uint, andb_true_r.
  rewrite bool_decide_false; [done|]. by destruct u.
Qed.

(** A numeral is an integer literal. *)
Lemma isnumeric_py_int (s : string) :
  isnumeric s = true → ∃ n, py_int s = Ok n.
Proof.
  unfold isnumeric. intros [Hne Hd]%andb_true_iff.
  apply negb_true_iff, bool_decide_eq_false in Hne.
  assert (Hgen : ∀ b, (s ≠ "" ∨ b = true) →
            forallb is_digit (list_ascii_of_string s) = true →
            int_digits b s = Some s).
  { clear. induction s as [|c s IH]; intros b Hb Hd; simpl in *.
    - destruct Hb as [?| ->]; done.
    - apply andb_true_iff in Hd as [Hc Hd]. rewrite Hc. by rewrite IH by auto. }
  unfold py_int. rewrite (Hgen false) by auto. simpl.
  assert (Hu : ∀ s, forallb is_digit (list_ascii_of_string s) = true →
            is_Some (NilEmpty.uint_of_string s)).
  { clear. induction s as [|c s IH]; simpl; [eauto|].
    intros [Hc Hd]%andb_true_iff. destruct (IH Hd) as [u ->].
    destruct c as [[] [] [] [] [] [] [] []]; try discriminate Hc; simpl; eauto. }
  destruct (Hu s Hd) as [u ->]. eauto.
Qed.

(** ** Residue ranges from the header line *)

Lemma shorter_list_ind {A : Type} (P : list A → Prop) :
  (∀ l, (∀ l', (length l' < length l)%nat → P l') → P l) → ∀ l, P l.
Proof.
  intros Hstep l. remember (length l) as n eqn:Hn. revert l Hn.
  induction n as [n IH] using lt_wf_ind. intros l ->.
  apply Hstep. intros l' Hlt. by apply (IH (length l')).
Qed.

Section DatafileFacts.
Implicit Types (it : list string) (d : list (string * string)).

(** One turn of the loop on a branched group. *)
Lemma datafile_loop_branched num ftok label it idx d n f :
  isnumeric ftok = true → py_int ftok = Ok f → py_int num = Ok n →
  datafile_loop (num :: ftok :: label :: it) idx d
  = datafile_loop it (idx + n * f) (set_same_mass d idx 0 (sub_names label f)).
Proof. intros Hnum Hf Hn. simpl. by rewrite Hnum, Hf, Hn. Qed.

(** One turn of the loop on a group without multiplicity. *)
Lemma datafile_loop_plain num label it idx d n :
  isnumeric label = false → py_int num = Ok n →
  datafile_loop (num :: label :: it) idx d
  = datafile_loop it (idx + n) (dict_set d label (resid_range idx (idx + n))).
Proof. intros Hlabel Hn. simpl. by rewrite Hlabel, Hn. Qed.

Lemma py_int_not_format_error s : py_int s ≠ Raise format_error.
Proof. unfold py_int. destruct (_ ≫= _); [done|]. simpl. intros [=]. Qed.

(** The loop never raises the format error. *)
Lemma datafile_loop_not_format_error it :
  ∀ idx d, datafile_loop it idx d ≠ Raise format_error.
Proof.
  induction it as [it IH] using shorter_list_ind.
  intros idx d. destruct it as [|num [|name it2]]; simpl; [done..|].
  destruct (isnumeric name).
  - destruct (py_int name) as [f|e] eqn:Hf; simpl.
    2: { intros [= ->]. by apply (py_int_not_format_error name). }
    destruct it2 as [|label it3]; [done|].
    destruct (py_int num) as [n|e] eqn:Hn; simpl.
    2: { intros [= ->]. by apply (py_int_not_format_error num). }
    apply IH. simpl. lia.
  - destruct (py_int num) as [n|e] eqn:Hn; simpl.
    2: { intros [= ->]. by apply (py_int_not_format_error num). }
    apply IH. simpl. lia.
Qed.

(** The loop returns exactly on well-grouped tokens. *)
Lemma datafile_loop_Ok it :
  ∀ idx d, (∃ d', datafile_loop it idx d = Ok d') ↔ groups_ok it = true.
Proof.
  induction it as [it IH] using shorter_list_ind.
  intros idx d. destruct it as [|num [|name it2]]; simpl.
  - split; eauto.
  - split; [by intros [? [=]]|done].
  - destruct (isnumeric name) eqn:Hname.
    + destruct (isnumeric_py_int name Hname) as [f ->]. simpl.
      destruct it2 as [|label it3]; [split; [by intros [? [=]]|done]|].
      unfold is_int_literal. destruct (py_int num) as [n|e]; simpl.
      * apply IH. simpl. lia.
      * split; [by intros [? [=]]|done].
    + unfold is_int_literal. destruct (py_int num) as [n|e]; simpl.
      * apply IH. simpl. lia.
      * split; [by intros [? [=]]|done].
Qed.
End DatafileFacts.

(** C5.  The loop of [res_dict_from_datafile], entered with the cursor at
    [s] and the dictionary [d], on a count token of value [N].
    With the numeral 2 and the label "EC" after the count, the loop returns
    [d] with "ECa" set to "same mass as resid s" and "ECb" set to "same
    mass as resid s+1" when these are the last tokens; the cursor has then
    moved to [s + 2 * N]: a group of another count [M] and a label [L']
    that is not a numeral, put after them, is returned with the range
    "resid (s+2N)-(s+2N+M-1)", and in general the loop goes on over the
    remaining tokens from [s + 2 * N] with the two entries recorded.
    With a label [L] that is not a numeral after the count, the loop returns
    [d] with [L] set to "resid s-(s+N-1)" when these are the last tokens;
    the cursor has then moved to [s + N]: the group [M], [L'] put after
    them is returned with the range "resid (s+N)-(s+N+M-1)", and in general
    the loop goes on over the remaining tokens from [s + N] with the entry
    recorded. *)
Theorem datafile_loop_group (num L num' L' : string) (N M s : Z)
    (d : list (string * string)) :
  py_int num = Ok N →
  py_int num' = Ok M →
  isnumeric L' = false →
  let d_EC :=
    dict_set (dict_set d "ECa" ("same mass as resid " +:+ str s))
      "ECb" ("same mass as resid " +:+ str (s + 1)) in
  let d_L := dict_set d L ("resid " +:+ str s +:+ "-" +:+ str (s + N - 1)) in
  (datafile_loop [num; "2"; "EC"] s d = Ok d_EC
   ∧ datafile_loop [num; "2"; "EC"; num'; L'] s d
     = Ok (dict_set d_EC L'
             ("resid " +:+ str (s + 2 * N) +:+ "-" +:+ str (s + 2 * N + M - 1)))
   ∧ ∀ it, datafile_loop (num :: "2" :: "EC" :: it) s d
           = datafile_loop it (s + 2 * N) d_EC)
  ∧ (isnumeric L = false →
     datafile_loop [num; L] s d = Ok d_L
     ∧ datafile_loop [num; L; num'; L'] s d
       = Ok (dict_set d_L L'
               ("resid " +:+ str (s + N) +:+ "-" +:+ str (s + N + M - 1)))
     ∧ ∀ it, datafile_loop (num :: L :: it) s d = datafile_loop it (s + N) d_L).
Proof.
  intros HN HM HL' d_EC d_L.
  assert (Hbr : ∀ it, datafile_loop (num :: "2" :: "EC" :: it) s d
                      = datafile_loop it (s + 2 * N) d_EC).
  { intros it. rewrite (datafile_loop_branched num "2" "EC" it s d N 2) by done.
    change (sub_names "EC" 2) with ["ECa"; "ECb"]. simpl.
    rewrite Z.add_0_r. unfold d_EC. f_equal. lia. }
  split.
  - split; [by rewrite Hbr|]. split; [|done].
    by rewrite Hbr, (datafile_loop_plain num' L' [] _ _ M).
  - intros HL.
    assert (Hpl : ∀ it, datafile_loop (num :: L :: it) s d
                        = datafile_loop it (s + N) d_L).
    { intros it. by rewrite (datafile_loop_plain num L it s d N). }
    split; [by rewrite Hpl|]. split; [|done].
    by rewrite Hpl, (datafile_loop_plain num' L' [] _ _ M).
Qed.

Lemma datafile_loop_group_witness :
  (datafile_loop ["10"; "2"; "EC"] 7 []
   = Ok [("ECa", "same mass as resid 7"); ("ECb", "same mass as resid 8")]
   ∧ datafile_loop ["10"; "2"; "EC"; "5"; "Li"] 7 []
     = Ok [("ECa", "same mass as resid 7"); ("ECb", "same mass as resid 8");
           ("Li", "resid 27-31")])
  ∧ datafile_loop ["10"; "DMC"] 7 [] = Ok [("DMC", "resid 7-16")]
  ∧ datafile_loop ["10"; "DMC"; "5"; "Li"] 7 []
    = Ok [("DMC", "resid 7-16"); ("Li", "resid 17-21")].
Proof.
  pose proof (datafile_loop_group "10" "DMC" "5" "Li" 10 5 7 []
                ltac:(reflexivity) ltac:(reflexivity) ltac:(reflexivity)) as [H1 H2].
  split.
  - split; [exact (proj1 H1) | exact (proj1 (proj2 H1))].
  - specialize (H2 ltac:(reflexivity)). split; [exact (proj1 H2) | exact (proj1 (proj2 H2))].
Defined.

(** C9, amended.  For a file of at least two lines, [res_dict_from_datafile]
    raises the format error exactly when the first line is not the
    generator marker or the second line does not begin with "#".  When the
    two lines conform, the outcome is that of reading the tokens of the
    second line, and it is a res_dict exactly when these tokens are
    well grouped (a count that [int] accepts, an optional numeral, a
    label). *)
Theorem res_dict_from_datafile_preamble (l0 l1 : string) (rest : list string) :
  (res_dict_from_datafile (l0 :: l1 :: rest) = Raise format_error
   ↔ ¬ conforming l0 l1)
  ∧ (conforming l0 l1 →
     res_dict_from_datafile (l0 :: l1 :: rest) = datafile_loop (findall_word l1) 1 []
     ∧ ((∃ d, res_dict_from_datafile (l0 :: l1 :: rest) = Ok d)
        ↔ groups_ok (findall_word l1) = true)).
Proof.
  unfold res_dict_from_datafile, conforming. simpl.
  destruct (decide (l0 = generator_marker)) as [->|Hne].
  - rewrite bool_decide_true by done. simpl.
    destruct (startswith_hash l1) eqn:Hh.
    + split.
      * split; [|intros []; done].
        intros Hf. by apply datafile_loop_not_format_error in Hf.
      * intros _. split; [done|]. apply datafile_loop_Ok.
    + split; [|by intros [_ [=]]]. split; [|done]. by intros _ [_ [=]].
  - rewrite bool_decide_false by done. split; [|by intros [? _]].
    split; [|done]. by intros _ [? _].
Qed.

Lemma res_dict_from_datafile_preamble_witness :
  res_dict_from_datafile [generator_marker; "# 3 EC + 2(2) LiPF6"]
  = datafile_loop (findall_word "# 3 EC + 2(2) LiPF6") 1 []
  ∧ ((∃ d, res_dict_from_datafile [generator_marker; "# 3 EC + 2(2) LiPF6"] = Ok d)
     ↔ groups_ok (findall_word "# 3 EC + 2(2) LiPF6") = true).
Proof.
  apply (res_dict_from_datafile_preamble generator_marker "# 3 EC + 2(2) LiPF6" []).
  split; reflexivity.
Defined.

(** C9 as stated fails: the two lines below conform to the preamble, yet
    the dangling token makes the call end in [StopIteration], and no
    res_dict is produced. *)
Lemma res_dict_from_datafile_counterexample :
  conforming generator_marker "# 10 EC + 5"
  ∧ res_dict_from_datafile [generator_marker; "# 10 EC + 5"] = Raise StopIteration.
Proof. split; [split|]; reflexivity. Qed.

(** ** The two readers of residue ranges *)

Lemma datafile_loop_frag_loop (gs : list Group) :
  Forall group_wf gs →
  ∀ idx d,
    datafile_loop (header_tokens gs) idx d
    = Ok (lammpsdata_frag_loop
            (zip (zip (map g_label gs) (map g_count gs))
               (map (fun g => default 1 (g_frag g)) gs)) idx d).
Proof.
  induction 1 as [|[n fo label] gs [Hn Hg] _ IH]; intros idx d; [done|].
  cbn [g_count g_frag g_label] in Hn, Hg.
  change (header_tokens ({| g_count := n; g_frag := fo; g_label := label |} :: gs))
    with (group_tokens {| g_count := n; g_frag := fo; g_label := label |}
            ++ header_tokens gs).
  destruct fo as [f|]; cbn [group_tokens g_count g_frag g_label app].
  - destruct Hg as [Hf Hne].
    rewrite (datafile_loop_branched (str n) (str f) label _ idx d n f)
      by auto using isnumeric_str, py_int_str.
    rewrite IH. simpl. by rewrite bool_decide_false by done.
  - rewrite (datafile_loop_plain (str n) label _ idx d n)
      by auto using py_int_str.
    rewrite IH. simpl. done.
Qed.

Lemma frag_loop_plain_loop (gs : list Group) :
  Forall (fun g => g_frag g = None) gs →
  ∀ idx d,
    lammpsdata_frag_loop
      (zip (zip (map g_label gs) (map g_count gs))
         (map (fun g => default 1 (g_frag g)) gs)) idx d
    = lammpsdata_plain_loop (zip (map g_label gs) (map g_count gs)) idx d.
Proof.
  induction 1 as [|[n fo label] gs Hg _ IH]; intros idx d; [done|].
  simpl in *. subst fo. simpl. apply IH.
Qed.

(** C4, amended.  Take a sequence of groups (count, optional multiplicity,
    label) in which every written multiplicity differs from 1 and every
    label written without multiplicity is not a numeral.  For a data file
    whose second line has these groups as its tokens and a [CombinedData]
    object holding the same groups, [res_dict_from_datafile] and
    [res_dict_from_lammpsdata] return the same entries in the same order;
    so they do for an object without [frags] when no group has a
    multiplicity. *)
Theorem res_dict_readers_agree (gs : list Group) (l1 : string) (rest : list string) :
  Forall group_wf gs →
  startswith_hash l1 = true →
  findall_word l1 = header_tokens gs →
  res_dict_from_datafile (generator_marker :: l1 :: rest)
  = Ok (res_dict_from_lammpsdata (combined_of gs))
  ∧ (Forall (fun g => g_frag g = None) gs →
     res_dict_from_datafile (generator_marker :: l1 :: rest)
     = Ok (res_dict_from_lammpsdata (combined_plain_of gs))).
Proof.
  intros Hwf Hh Htok.
  assert (Hfile : res_dict_from_datafile (generator_marker :: l1 :: rest)
                  = Ok (res_dict_from_lammpsdata (combined_of gs))).
  { unfold res_dict_from_datafile. cbn [line_at lookup list_lookup mbind result_bind].
    rewrite bool_decide_true by done. cbn [line_at lookup list_lookup].
    rewrite Hh, Htok. by apply datafile_loop_frag_loop. }
  split; [done|]. intros Hplain. rewrite Hfile. f_equal.
  unfold res_dict_from_lammpsdata. simpl. by apply frag_loop_plain_loop.
Qed.

Lemma res_dict_readers_agree_witness :
  res_dict_from_datafile [generator_marker; "# 3 EC + 2(2) LiPF6 + 10 DMC"]
  = Ok (res_dict_from_lammpsdata
          (combined_of [ {| g_count := 3; g_frag := None; g_label := "EC" |};
                         {| g_count := 2; g_frag := Some 2; g_label := "LiPF6" |};
                         {| g_count := 10; g_frag := None; g_label := "DMC" |} ])).
Proof.
  apply (res_dict_readers_agree
           [ {| g_count := 3; g_frag := None; g_label := "EC" |};
             {| g_count := 2; g_frag := Some 2; g_label := "LiPF6" |};
             {| g_count := 10; g_frag := None; g_label := "DMC" |} ]
           "# 3 EC + 2(2) LiPF6 + 10 DMC" []).
  - repeat (apply Forall_cons; split; [vm_compute; repeat split; congruence|]).
    constructor.
  - reflexivity.
  - vm_compute. reflexivity.
Defined.

(** C4 as stated fails on a group written with the multiplicity 1: the
    file reader records the sub-name "ECa", the object reader the range of
    "EC". *)
Lemma res_dict_readers_counterexample :
  findall_word "# 3(1) EC"
  = header_tokens [ {| g_count := 3; g_frag := Some 1; g_label := "EC" |} ]
  ∧ res_dict_from_datafile [generator_marker; "# 3(1) EC"]
    = Ok [("ECa", "same mass as resid 1")]
  ∧ res_dict_from_lammpsdata
      (combined_of [ {| g_count := 3; g_frag := Some 1; g_label := "EC" |} ])
    = [("EC", "resid 1-3")].
Proof. repeat split; vm_compute; reflexivity. Qed.

(** ** Residue selections from atom selections *)

Section SelectionFacts.
Context {AtomGroup : Type} `{EqDecision AtomGroup}.
Variable select_atoms : string → AtomGroup.
Implicit Types (items d : list (string * string)) (saved : list AtomGroup).

Lemma residue_loop_NoDup items :
  ∀ saved d, NoDup (dict_keys d) →
    NoDup (dict_keys (residue_loop select_atoms items saved d)).
Proof.
  induction items as [|[key val] items IH]; intros saved d Hd; simpl; [done|].
  destruct (_ || _); apply IH; [by apply dict_set_NoDup | done].
Qed.

(** The keys "cation" and "anion" are always kept, with the expanded
    expression. *)
Lemma residue_loop_ion items key :
  key ∈ ["cation"; "anion"] → NoDup (dict_keys items) →
  ∀ saved d,
    dict_get (residue_loop select_atoms items saved d) key
    = match dict_get items key with
      | Some val => Some (same_resid val)
      | None => dict_get d key
      end.
Proof.
  intros Hkey. induction items as [|[k val] items IH]; intros Hnd saved d; [done|].
  apply NoDup_cons in Hnd as [Hnotin Hnd].
  cbn [residue_loop dict_get]. destruct (decide (k = key)) as [->|Hne].
  - rewrite bool_decide_true by done. cbn [orb]. rewrite (IH Hnd).
    destruct (dict_get items key) eqn:Hget.
    + exfalso. apply Hnotin. apply (dict_get_Some_keys items key).
      by rewrite Hget.
    + apply dict_get_set_eq.
  - destruct (_ || _); rewrite (IH Hnd); destruct (dict_get items key); try done.
    by apply dict_get_set_ne.
Qed.
End SelectionFacts.

(** C3.  Let [select_dict] hold the keys "cation" and "anion", with
    expressions [c] and [a].  If the two expanded selections,
    "same resid as (c)" and "same resid as (a)", are the same atom group,
    the result holds the key "salt" once, with the cation's expanded
    expression, and neither "cation" nor "anion"; if the two groups differ,
    the result holds both "cation" and "anion". *)
Theorem res_dict_salt {AtomGroup : Type} `{EqDecision AtomGroup}
    (select_atoms : string → AtomGroup) (select_dict : list (string * string))
    (c a : string) :
  NoDup (dict_keys select_dict) →
  dict_get select_dict "cation" = Some c →
  dict_get select_dict "anion" = Some a →
  (select_atoms (same_resid c) = select_atoms (same_resid a) →
   dict_get (res_dict_from_select_dict select_atoms select_dict) "salt"
   = Some (same_resid c)
   ∧ NoDup (dict_keys (res_dict_from_select_dict select_atoms select_dict))
   ∧ ("cation" ∉ dict_keys (res_dict_from_select_dict select_atoms select_dict))
   ∧ ("anion" ∉ dict_keys (res_dict_from_select_dict select_atoms select_dict)))
  ∧ (select_atoms (same_resid c) ≠ select_atoms (same_resid a) →
     "cation" ∈ dict_keys (res_dict_from_select_dict select_atoms select_dict)
     ∧ "anion" ∈ dict_keys (res_dict_from_select_dict select_atoms select_dict)).
Proof.
  intros Hnd Hc Ha. unfold res_dict_from_select_dict.
  pose proof (residue_loop_NoDup select_atoms select_dict [] [] (NoDup_nil_2))
    as Hnd'.
  pose proof (residue_loop_ion select_atoms select_dict "cation"
                ltac:(rewrite !elem_of_cons; auto) Hnd [] []) as Hc'.
  pose proof (residue_loop_ion select_atoms select_dict "anion"
                ltac:(rewrite !elem_of_cons; auto) Hnd [] []) as Ha'.
  rewrite Hc in Hc'. rewrite Ha in Ha'.
  set (r := residue_loop select_atoms select_dict [] []) in *.
  rewrite Hc', Ha'. split.
  - intros Heq. rewrite bool_decide_true by done.
    assert (Hnd1 : NoDup (dict_keys (dict_del r "anion"))) by by apply dict_del_NoDup.
    assert (Hnd2 : NoDup (dict_keys (dict_del (dict_del r "anion") "cation")))
      by by apply dict_del_NoDup.
    split; [apply dict_get_set_eq|]. split; [by apply dict_set_NoDup|].
    split; intros [?|Hin]%dict_keys_set; try done.
    + by apply (dict_keys_del _ _ Hnd1) in Hin as [? _].
    + apply (dict_keys_del _ _ Hnd1) in Hin as [_ Hin].
      by apply (dict_keys_del _ _ Hnd') in Hin as [? _].
  - intros Hne. rewrite bool_decide_false by done.
    split; apply dict_get_Some_keys; [rewrite Hc' | rewrite Ha']; eauto.
Qed.

Lemma res_dict_salt_witness :
  dict_get
    (res_dict_from_select_dict
       (fun s => if bool_decide (s = same_resid "type O") then [2; 3; 4]%nat
                 else [0; 1]%nat)
       [("cation", "type Li"); ("EC", "type O"); ("anion", "type Cl")]) "salt"
  = Some (same_resid "type Li").
Proof.
  refine (proj1 (proj1 (res_dict_salt _ _ "type Li" "type Cl" _ _ _) _)).
  - apply (bool_decide_unpack _). vm_compute. exact I.
  - reflexivity.
  - reflexivity.
  - reflexivity.
Defined.

(** ** First extremum of a sequence *)

Section ArgFirst.
Context {A : Type} (better : A → A → bool).
Hypothesis better_asym : ∀ x y, better x y = true → better y x = false.
Hypothesis better_trans :
  ∀ x b y, better x b = true → better y b = false → better x y = true.

Lemma better_irrefl x : better x x = false.
Proof. destruct (better x x) eqn:E; [by rewrite (better_asym x x E) in E|done]. Qed.

Lemma first_best_snoc_new pre bi b x :
  first_best better pre bi b → better x b = true →
  first_best better (pre ++ [x]) (length pre) x.
Proof.
  intros (Hbi & Hmax & Hfirst) Hx. split; [|split].
  - by rewrite lookup_app_r, Nat.sub_diag by lia.
  - intros y [Hy| ->%list_elem_of_singleton]%elem_of_app.
    + apply better_asym, (better_trans x b y); auto.
    + apply better_irrefl.
  - intros j y Hj Hy. rewrite lookup_app_l in Hy by done.
    apply (better_trans x b y); [done|].
    apply Hmax. by eapply list_elem_of_lookup_2.
Qed.

Lemma first_best_snoc_old pre bi b x :
  first_best better pre bi b → better x b = false →
  first_best better (pre ++ [x]) bi b.
Proof.
  intros (Hbi & Hmax & Hfirst) Hx.
  pose proof (lookup_lt_Some _ _ _ Hbi) as Hlt. split; [|split].
  - by rewrite lookup_app_l.
  - intros y [Hy| ->%list_elem_of_singleton]%elem_of_app; auto.
  - intros j y Hj Hy. rewrite lookup_app_l in Hy by lia. eauto.
Qed.

Lemma arg_from_sound l :
  ∀ pre bi b, first_best better pre bi b →
    ∃ x, first_best better (pre ++ l) (arg_from better bi b (length pre) l) x.
Proof.
  induction l as [|x l IH]; intros pre bi b Hpre; simpl.
  - rewrite app_nil_r. eauto.
  - rewrite (cons_middle x pre l), app_assoc.
    assert (Hlen : S (length pre) = length (pre ++ [x]))
      by (rewrite length_app; simpl; lia).
    rewrite Hlen. destruct (better x b) eqn:Hx; apply IH.
    + by apply (first_best_snoc_new pre bi b).
    + by apply first_best_snoc_old.
Qed.

Lemma arg_first_sound what l :
  l ≠ [] → ∃ i x, arg_first better what l = Ok i ∧ first_best better l i x.
Proof.
  destruct l as [|x l]; [done|]. intros _. simpl.
  destruct (arg_from_sound l [x] 0%nat x) as [y Hy].
  - split; [done|]. split.
    + intros y ->%list_elem_of_singleton. apply better_irrefl.
    + intros j y Hj. lia.
  - eauto.
Qed.

Lemma first_best_unique l i x i' x' :
  first_best better l i x → first_best better l i' x' → i = i' ∧ x = x'.
Proof.
  intros (Hi & Hmax & Hfirst) (Hi' & Hmax' & Hfirst').
  assert (i = i') as <-; [|split; [done|congruence]].
  destruct (Nat.lt_trichotomy i i') as [Hlt|[?|Hlt]]; [|done|].
  - pose proof (Hfirst' i x Hlt Hi) as H1.
    pose proof (Hmax x' (list_elem_of_lookup_2 _ _ _ Hi')) as H2. congruence.
  - pose proof (Hfirst i' x' Hlt Hi') as H1.
    pose proof (Hmax' x (list_elem_of_lookup_2 _ _ _ Hi)) as H2. congruence.
Qed.
End ArgFirst.

(** ** Charges *)

Lemma Qgt_bool_true (x y : Q) : Qgt_bool x y = true ↔ (y < x)%Q.
Proof.
  unfold Qgt_bool. rewrite negb_true_iff. split.
  - intros Hle. apply Qnot_le_lt. intros Hxy%Qle_bool_iff. congruence.
  - intros Hlt. destruct (Qle_bool x y) eqn:E; [|done].
    apply Qle_bool_iff in E. lra.
Qed.

Lemma Qgt_bool_false (x y : Q) : Qgt_bool x y = false ↔ (x <= y)%Q.
Proof.
  unfold Qgt_bool. rewrite negb_false_iff. apply Qle_bool_iff.
Qed.

Lemma charge_better_asym positive x y :
  charge_better positive x y = true → charge_better positive y x = false.
Proof.
  destruct positive; simpl; rewrite Qgt_bool_true, Qgt_bool_false; lra.
Qed.

Lemma charge_better_trans positive x b y :
  charge_better positive x b = true → charge_better positive y b = false →
  charge_better positive x y = true.
Proof.
  destruct positive; simpl; rewrite !Qgt_bool_true, Qgt_bool_false; lra.
Qed.

Lemma first_best_extremal positive (ion : list Atom) i x :
  first_best (charge_better positive) (map charge ion) i x →
  ∃ center, ion !! i = Some center ∧ is_extremal positive ion i center.
Proof.
  intros (Hi & Hmax & Hfirst).
  apply list_lookup_fmap_Some in Hi as (center & -> & Hi).
  exists center. split; [done|]. split; [done|]. split.
  - intros a Ha. specialize (Hmax (charge a) (list_elem_of_fmap_2 charge _ _ Ha)).
    destruct positive; simpl in *; by apply Qgt_bool_false in Hmax.
  - intros j a Hj Ha. specialize (Hfirst j (charge a) Hj).
    rewrite list_lookup_fmap, Ha in Hfirst. specialize (Hfirst eq_refl).
    destruct positive; simpl in *; by apply Qgt_bool_true in Hfirst.
Qed.

(** On a group with atoms, [np.argmax] (for a cation) and [np.argmin]
    (otherwise) of the charges return the index of the extremal atom. *)
Lemma arg_charge_extremal (positive : bool) (ion : list Atom) :
  ion ≠ [] →
  ∃ i center,
    (if positive then np_argmax else np_argmin) (map charge ion) = Ok i
    ∧ item_at ion i = Ok center
    ∧ is_extremal positive ion i center.
Proof.
  intros Hne.
  destruct (arg_first_sound (charge_better positive)
              (charge_better_asym positive) (charge_better_trans positive)
              (if positive then "argmax" else "argmin") (map charge ion))
    as (i & x & Harg & Hbest); [by destruct ion|].
  destruct (first_best_extremal positive ion i x Hbest) as (center & Hi & Hext).
  exists i, center. split; [|split; [|done]].
  - by destruct positive.
  - unfold item_at. by rewrite Hi.
Qed.

Lemma is_extremal_unique positive ion i center i' center' :
  is_extremal positive ion i center → is_extremal positive ion i' center' →
  i = i' ∧ center = center'.
Proof.
  intros (Hi & Hmax & Hfirst) (Hi' & Hmax' & Hfirst').
  assert (i = i') as <-; [|split; [done|congruence]].
  destruct (Nat.lt_trichotomy i i') as [Hlt|[?|Hlt]]; [|done|].
  - pose proof (Hfirst' i center Hlt Hi) as H1.
    pose proof (Hmax center' (list_elem_of_lookup_2 _ _ _ Hi')) as H2.
    destruct positive; lra.
  - pose proof (Hfirst i' center' Hlt Hi') as H1.
    pose proof (Hmax' center (list_elem_of_lookup_2 _ _ _ Hi)) as H2.
    destruct positive; lra.
Qed.

(** ** The order of strings *)

Lemma compare_refl (s : string) : String.compare s s = Eq.
Proof.
  induction s as [|a s IH]; simpl; [done|].
  unfold Ascii.compare. by rewrite N.compare_refl.
Qed.

Lemma compare_gt_lt (a b : string) :
  String.compare a b = Gt → String.compare b a = Lt.
Proof. intros H. by rewrite String.compare_antisym, H. Qed.

Lemma compare_lt_trans (a b c : string) :
  String.compare a b = Lt → String.compare b c = Lt → String.compare a c = Lt.
Proof.
  intros Hab Hbc.
  assert (Hle : String.le a c).
  { transitivity b; unfold String.le, String.leb; [by rewrite Hab | by rewrite Hbc]. }
  unfold String.le, String.leb in Hle.
  destruct (String.compare a c) eqn:Hac; [|done|done].
  apply String.compare_eq_iff in Hac as ->.
  rewrite String.compare_antisym, Hab in Hbc. done.
Qed.

(** ** Sorted values with their counts *)

Lemma count_type_snoc t types t' :
  count_type t (types ++ [t'])
  = (count_type t types + if decide (t' = t) then 1 else 0)%nat.
Proof.
  unfold count_type. rewrite filter_app, length_app. f_equal.
  rewrite filter_cons, filter_nil. by destruct (decide (t' = t)).
Qed.

Lemma count_type_absent t types : t ∉ types → count_type t types = 0%nat.
Proof.
  unfold count_type. induction types as [|x types IH]; [done|].
  intros [Hne Hnotin]%not_elem_of_cons.
  rewrite filter_cons, decide_False by done. auto.
Qed.

Lemma count_in_Forall (P : string * nat → Prop) t (l : list (string * nat)) :
  (∀ k n m, P (k, n) → P (k, m)) →
  P (t, 1%nat) → Forall P l → Forall P (count_in t l).
Proof.
  intros Hkey Ht. induction 1 as [|[k n] l Hx Hl IH]; simpl.
  - by repeat constructor.
  - destruct (String.compare t k); repeat constructor; eauto.
Qed.

Lemma count_in_sorted t (l : list (string * nat)) :
  StronglySorted key_lt l → StronglySorted key_lt (count_in t l).
Proof.
  induction 1 as [|[k n] l Hl IH Hall]; simpl.
  - repeat constructor.
  - destruct (String.compare t k) eqn:Hc.
    + constructor; [done|]. eapply Forall_impl; [exact Hall|]. by intros [??].
    + constructor; [by constructor|]. constructor; [done|].
      eapply Forall_impl; [exact Hall|]. intros [k' n'] Hk. unfold key_lt in *.
      simpl in *. by eapply compare_lt_trans.
    + constructor; [done|]. apply count_in_Forall; [by intros ???| |done].
      unfold key_lt. simpl. by apply compare_gt_lt.
Qed.

Lemma sorted_dict_get_head k n (l : list (string * nat)) t :
  Forall (key_lt (k, n)) l → String.compare t k = Lt → dict_get l t = None.
Proof.
  intros Hall Ht. induction Hall as [|[k' n'] l Hk _ IH]; simpl; [done|].
  unfold key_lt in Hk. simpl in Hk.
  rewrite decide_False; [done|]. intros ->.
  pose proof (compare_lt_trans _ _ _ Ht Hk) as Hr. by rewrite compare_refl in Hr.
Qed.

Lemma count_in_get t (l : list (string * nat)) t' :
  StronglySorted key_lt l →
  dict_get (count_in t l) t'
  = if decide (t' = t) then Some (S (default 0%nat (dict_get l t))) else dict_get l t'.
Proof.
  induction 1 as [|[k n] l Hl IH Hall]; simpl.
  - destruct (decide (t = t')), (decide (t' = t)); done || congruence.
  - destruct (String.compare t k) eqn:Hc; simpl.
    + apply String.compare_eq_iff in Hc as ->.
      rewrite (decide_True (P := k = k)) by done. simpl.
      destruct (decide (k = t')), (decide (t' = k)); done || congruence.
    + assert (k ≠ t) by (intros ->; by rewrite compare_refl in Hc).
      rewrite (decide_False (P := k = t)) by done.
      rewrite (sorted_dict_get_head k n l t Hall Hc). simpl.
      destruct (decide (t = t')), (decide (t' = t)); done || congruence.
    + assert (k ≠ t) by (intros ->; by rewrite compare_refl in Hc).
      rewrite (decide_False (P := k = t)) by done. rewrite IH.
      destruct (decide (k = t')), (decide (t' = t)); done || congruence.
Qed.

Lemma np_unique_counts_snoc types t :
  np_unique_counts (types ++ [t]) = count_in t (np_unique_counts types).
Proof. unfold np_unique_counts. by rewrite foldl_app. Qed.

(** The pairs are sorted by value and give each value of [types] its
    number of occurrences. *)
Lemma np_unique_counts_spec (types : list string) :
  StronglySorted key_lt (np_unique_counts types)
  ∧ ∀ t, dict_get (np_unique_counts types) t
         = if decide (t ∈ types) then Some (count_type t types) else None.
Proof.
  induction types as [|t types [Hs Hget]] using rev_ind.
  - split; [constructor|]. intros t. rewrite decide_False; [done|]. apply not_elem_of_nil.
  - rewrite np_unique_counts_snoc. split; [by apply count_in_sorted|].
    intros t'. rewrite (count_in_get t _ t' Hs), count_type_snoc, (Hget t), (Hget t').
    destruct (decide (t' = t)) as [->|Hne].
    + rewrite (decide_True (P := t ∈ types ++ [t]))
        by (apply elem_of_app; right; by apply list_elem_of_singleton).
      rewrite (decide_True (P := t = t)) by done. f_equal.
      destruct (decide (t ∈ types)) as [?|Hnotin]; simpl; [lia|].
      rewrite (count_type_absent t types Hnotin). lia.
    + rewrite (decide_False (P := t = t')) by done. rewrite Nat.add_0_r.
      destruct (decide (t' ∈ types)) as [Hin|Hnotin].
      * rewrite decide_True; [done|]. apply elem_of_app. by left.
      * rewrite decide_False; [done|].
        intros [?|?%list_elem_of_singleton]%elem_of_app; done.
Qed.

Lemma sorted_lookup_lt {A : Type} (R : A → A → Prop) (l : list A) :
  StronglySorted R l →
  ∀ i j x y, (i < j)%nat → l !! i = Some x → l !! j = Some y → R x y.
Proof.
  induction 1 as [|a l Hl IH Hall]; intros i j x y Hij Hi Hj; [done|].
  destruct j as [|j]; [lia|]. simpl in Hj. destruct i as [|i]; simpl in Hi.
  - injection Hi as <-. rewrite Forall_forall in Hall.
    apply Hall. by eapply list_elem_of_lookup_2.
  - apply (IH i j); [lia|done..].
Qed.

Lemma sorted_get_lookup (l : list (string * nat)) :
  StronglySorted key_lt l →
  ∀ i t n, l !! i = Some (t, n) → dict_get l t = Some n.
Proof.
  induction 1 as [|[k m] l Hl IH Hall]; intros i t n Hi; [done|].
  simpl. destruct i as [|i]; simpl in Hi.
  - injection Hi as -> ->. by rewrite decide_True.
  - rewrite decide_False; [by apply (IH i)|]. intros ->.
    rewrite Forall_forall in Hall.
    specialize (Hall (t, n) (list_elem_of_lookup_2 _ _ _ Hi)).
    unfold key_lt in Hall. simpl in Hall. by rewrite compare_refl in Hall.
Qed.

Lemma dict_get_lookup {V : Type} (l : list (string * V)) t v :
  dict_get l t = Some v → ∃ j, l !! j = Some (t, v).
Proof.
  induction l as [|[k m] l IH]; simpl; [done|].
  destruct (decide (k = t)) as [->|Hne].
  - intros [= ->]. by exists 0%nat.
  - intros [j Hj]%IH. by exists (S j).
Qed.

(** On a group with atoms, the value [np.unique] pairs with the first
    least count is the rarest type. *)
Lemma rarest_sound (types : list string) :
  types ≠ [] →
  ∃ j t, np_argmin_nat (map snd (np_unique_counts types)) = Ok j
    ∧ item_at (map fst (np_unique_counts types)) j = Ok t
    ∧ is_rarest types t.
Proof.
  intros Hne. destruct (np_unique_counts_spec types) as [Hs Hget].
  set (L := np_unique_counts types) in *.
  assert (HL : map snd L ≠ []).
  { destruct types as [|t0 types]; [done|]. specialize (Hget t0).
    rewrite decide_True in Hget by left. by destruct L. }
  destruct (arg_first_sound (fun x y => (x <? y)%nat)
              ltac:(intros x y ?%Nat.ltb_lt; apply Nat.ltb_ge; lia)
              ltac:(intros x b y ?%Nat.ltb_lt ?%Nat.ltb_ge; apply Nat.ltb_lt; lia)
              "argmin" (map snd L) HL)
    as (j & n & Harg & Hj & Hmin & Hfirst).
  apply list_lookup_fmap_Some in Hj as ([t n'] & -> & Hj). simpl in *.
  exists j, t. split; [done|]. split.
  { unfold item_at. by rewrite list_lookup_fmap, Hj. }
  pose proof (sorted_get_lookup L Hs j t n' Hj) as Ht. rewrite Hget in Ht.
  destruct (decide (t ∈ types)) as [Hin|]; [|done]. injection Ht as Ht.
  split; [done|]. intros t' Hin'.
  pose proof (Hget t') as Ht'. rewrite decide_True in Ht' by done.
  destruct (dict_get_lookup L t' _ Ht') as [j' Hj'].
  assert (Hsnd : count_type t' types ∈ map snd L).
  { apply (list_elem_of_fmap_2 snd _ (t', count_type t' types)).
    by eapply list_elem_of_lookup_2. }
  specialize (Hmin _ Hsnd). apply Nat.ltb_ge in Hmin. split; [lia|].
  intros Heq. unfold String.leb.
  destruct (Nat.lt_trichotomy j j') as [Hlt|[<-|Hlt]].
  - pose proof (sorted_lookup_lt key_lt L Hs j j' _ _ Hlt Hj Hj') as Hk.
    unfold key_lt in Hk. simpl in Hk. by rewrite Hk.
  - rewrite Hj in Hj'. injection Hj' as <- _. by rewrite compare_refl.
  - specialize (Hfirst j' (count_type t' types) Hlt).
    rewrite list_lookup_fmap, Hj' in Hfirst. specialize (Hfirst eq_refl).
    apply Nat.ltb_lt in Hfirst. lia.
Qed.

Lemma is_rarest_unique types t t' : is_rarest types t → is_rarest types t' → t = t'.
Proof.
  intros [Hin Hmin] [Hin' Hmin'].
  destruct (Hmin t' Hin') as [Hle Htie], (Hmin' t Hin) as [Hle' Htie'].
  apply String.leb_antisym; [apply Htie | apply Htie']; lia.
Qed.

(** ** Center atoms *)

Lemma append_nonempty (s t : string) : s +:+ t = s → t = "".
Proof. induction s as [|c s IH]; simpl; [done|]. intros [= H]. auto. Qed.

(** What [extract_atom_from_ion] does on a group with atoms. *)
Lemma extract_atom_from_ion_spec (positive : bool) (ion : list Atom)
    (d : list (string * string)) (number : Z) :
  ion ≠ [] →
  ∃ i center t,
    is_extremal positive ion i center
    ∧ is_rarest (map atom_type ion) t
    ∧ extract_atom_from_ion positive ion d number
      = Ok (let name := ion_name (if positive then "cation" else "anion") number in
            if bool_decide (atom_type center = t)
            then dict_set d name ("type " +:+ t)
            else dict_set
                   (dict_set d (name +:+ "_" +:+ atom_name center +:+ atom_type center)
                      ("type " +:+ atom_type center))
                   name ("type " +:+ t)).
Proof.
  intros Hne.
  destruct (arg_charge_extremal positive ion Hne) as (i & center & Harg & Hitem & Hext).
  destruct (rarest_sound (map atom_type ion)) as (j & t & Hmin & Ht & Hrare);
    [by destruct ion|].
  exists i, center, t. split; [done|]. split; [done|].
  unfold extract_atom_from_ion.
  destruct ion as [|a [|a' ion']]; [done| |].
  - (* a single atom *)
    destruct Hext as (Hi & _ & _). destruct i as [|i]; [|done]. injection Hi as <-.
    destruct Hrare as [->%list_elem_of_singleton _]. simpl.
    by rewrite bool_decide_true.
  - cbn [map]. cbn [map] in Harg, Hmin, Ht. rewrite Harg. cbn [mbind result_bind].
    rewrite Hitem. cbn [mbind result_bind]. rewrite Hmin. cbn [mbind result_bind].
    rewrite Ht. cbn [mbind result_bind]. by destruct (bool_decide _).
Qed.

(** C2, amended.  On an ion fragment whose atoms all have the type [T],
    [extract_atom_from_ion] records one entry, the name of the ion
    ("cation" or "anion", with "_" and the number when numbered) with
    "type T".  On a fragment whose extremal-charge atom has a type other
    than the rarest type it records two entries under two different keys:
    the name followed by "_", the atom name and the atom type (these two
    joined without separator) with the type of the extremal atom, and the
    bare name with the rarest type. *)
Theorem extract_atom_from_ion_entries (positive : bool) (ion : list Atom)
    (d : list (string * string)) (number : Z) :
  (∀ T, ion ≠ [] → (∀ a, a ∈ ion → atom_type a = T) →
     extract_atom_from_ion positive ion d number
     = Ok (dict_set d (ion_name (if positive then "cation" else "anion") number)
             ("type " +:+ T)))
  ∧ (∀ i center t,
       is_extremal positive ion i center →
       is_rarest (map atom_type ion) t →
       atom_type center ≠ t →
       extract_atom_from_ion positive ion d number
       = Ok (dict_set
               (dict_set d
                  (ion_name (if positive then "cation" else "anion") number
                   +:+ "_" +:+ atom_name center +:+ atom_type center)
                  ("type " +:+ atom_type center))
               (ion_name (if positive then "cation" else "anion") number)
               ("type " +:+ t))
       ∧ ion_name (if positive then "cation" else "anion") number
         +:+ "_" +:+ atom_name center +:+ atom_type center
         ≠ ion_name (if positive then "cation" else "anion") number).
Proof.
  split.
  - intros T Hne Hall.
    destruct (extract_atom_from_ion_spec positive ion d number Hne)
      as (i & center & t & (Hi & _) & [Hin _] & ->).
    apply list_elem_of_fmap in Hin as (a & -> & Ha).
    rewrite (Hall a Ha), bool_decide_true; [done|].
    apply Hall. by eapply list_elem_of_lookup_2.
  - intros i center t Hext Hrare Hne.
    assert (Hion : ion ≠ []) by (destruct Hext as [Hi _]; by destruct ion).
    destruct (extract_atom_from_ion_spec positive ion d number Hion)
      as (i' & center' & t' & Hext' & Hrare' & ->).
    destruct (is_extremal_unique _ _ _ _ _ _ Hext Hext') as [<- <-].
    rewrite <- (is_rarest_unique _ _ _ Hrare Hrare').
    rewrite bool_decide_false by done. split; [done|].
    intros Heq. by apply append_nonempty in Heq.
Qed.

Lemma extract_atom_from_ion_entries_witness :
  extract_atom_from_ion true
    [ {| atom_name := "N1"; atom_type := "N"; charge := 0.2 |};
      {| atom_name := "H1"; atom_type := "H"; charge := 0.4 |};
      {| atom_name := "H2"; atom_type := "H"; charge := 0.4 |} ] [] 0
  = Ok (dict_set (dict_set [] ("cation" +:+ "_" +:+ "H1" +:+ "H") ("type " +:+ "H"))
          "cation" ("type " +:+ "N"))
  ∧ extract_atom_from_ion false
      [ {| atom_name := "Cl1"; atom_type := "Cl"; charge := - (0.5) |};
        {| atom_name := "Cl2"; atom_type := "Cl"; charge := - (0.5) |} ] [] 3
    = Ok (dict_set [] (ion_name "anion" 3) ("type " +:+ "Cl")).
Proof.
  split.
  - refine (proj1 (proj2 (extract_atom_from_ion_entries true _ [] 0) 1%nat
                     {| atom_name := "H1"; atom_type := "H"; charge := 0.4 |} "N" _ _ _)).
    + split; [reflexivity|]. split.
      * intros a Ha. rewrite !elem_of_cons, elem_of_nil in Ha.
        destruct Ha as [->|[->|[->|[]]]]; vm_compute; discriminate.
      * intros j a Hj Ha. destruct j as [|j]; [|lia].
        injection Ha as <-. vm_compute. reflexivity.
    + split; [left|]. intros t' Ht'. cbn [map atom_type] in Ht'.
      rewrite !elem_of_cons, elem_of_nil in Ht'.
      destruct Ht' as [->|[->|[->|[]]]]; vm_compute; split; (lia || done).
    + discriminate.
  - refine (proj1 (extract_atom_from_ion_entries false _ [] 3) "Cl" _ _).
    + discriminate.
    + intros a Ha. rewrite !elem_of_cons, elem_of_nil in Ha.
      destruct Ha as [->|[->|[]]]; reflexivity.
Defined.

(** C2 as stated fails on the key of the first of the two entries: for
    the atom H1 of type H the code records "cation_H1H", and no key
    "cation_H1_H". *)
Lemma extract_atom_from_ion_key_counterexample :
  extract_atom_from_ion true
    [ {| atom_name := "N1"; atom_type := "N"; charge := 0.2 |};
      {| atom_name := "H1"; atom_type := "H"; charge := 0.4 |};
      {| atom_name := "H2"; atom_type := "H"; charge := 0.4 |} ] [] 0
  = Ok [("cation_H1H", "type H"); ("cation", "type N")]
  ∧ dict_get [("cation_H1H", "type H"); ("cation", "type N")]
      ("cation" +:+ "_" +:+ "H1" +:+ "_" +:+ "H") = None.
Proof. split; vm_compute; reflexivity. Qed.

(** ** Species classification *)

Lemma universe_wf_elem u r :
  universe_wf u → r ∈ u → atoms r ≠ [] ∧ Forall (fun f => f ≠ []) (fragments r).
Proof. unfold universe_wf. rewrite Forall_forall. auto. Qed.

Lemma extends_refl d : extends d d.
Proof. by intros k. Qed.

Lemma extends_trans d1 d2 d3 : extends d1 d2 → extends d2 d3 → extends d1 d3.
Proof. intros H12 H23 k Hk. auto. Qed.

#[local] Hint Resolve extends_refl extends_trans : core.

Lemma extends_set (d : list (string * string)) k v : extends d (dict_set d k v).
Proof. intros k0 Hk0. apply dict_keys_set. by right. Qed.

Lemma set_key (d : list (string * string)) k v : k ∈ dict_keys (dict_set d k v).
Proof. apply dict_keys_set. by left. Qed.

Lemma extract_atom_from_ion_keys positive ion d number :
  ion ≠ [] →
  ∃ d', extract_atom_from_ion positive ion d number = Ok d'
    ∧ extends d d'
    ∧ ion_name (if positive then "cation" else "anion") number ∈ dict_keys d'.
Proof.
  intros Hne.
  destruct (extract_atom_from_ion_spec positive ion d number Hne)
    as (i & center & t & _ & _ & ->).
  eexists. split; [done|]. simpl. destruct (bool_decide _).
  - split; [apply extends_set | apply set_key].
  - split; [|apply set_key]. eapply extends_trans; apply extends_set.
Qed.

(** What [extract_atom_from_molecule] does on a group with atoms. *)
Lemma extract_atom_from_molecule_spec resname molecule d number :
  molecule ≠ [] →
  ∃ i center,
    is_extremal false molecule i center
    ∧ extract_atom_from_molecule resname molecule d number
      = Ok (dict_set d
              (if (0 <? number)%Z then resname +:+ "_" +:+ str number else resname)
              ("type " +:+ atom_type center)).
Proof.
  intros Hne.
  destruct (arg_charge_extremal false molecule Hne)
    as (i & center & Harg & Hitem & Hext).
  exists i, center. split; [done|]. unfold extract_atom_from_molecule.
  rewrite Harg. cbn [mbind result_bind]. by rewrite Hitem.
Qed.

Lemma extract_atom_from_molecule_keys resname molecule d number :
  molecule ≠ [] →
  ∃ d', extract_atom_from_molecule resname molecule d number = Ok d' ∧ extends d d'.
Proof.
  intros Hne.
  destruct (extract_atom_from_molecule_spec resname molecule d number Hne)
    as (i & center & _ & ->).
  eexists. split; [done|]. apply extends_set.
Qed.

Lemma pair_loop_keys resname frags :
  Forall (fun f => f ≠ []) frags →
  ∀ i d, ∃ d', pair_loop resname frags i d = Ok d' ∧ extends d d'.
Proof.
  induction 1 as [|f frags Hf _ IH]; intros i d; simpl; [eauto|].
  assert (Hstep : ∃ d1,
    (if pos_charge (np_sum (map charge f)) then extract_atom_from_ion true f d 0
     else if neg_charge (np_sum (map charge f)) then extract_atom_from_ion false f d 0
     else extract_atom_from_molecule resname f d (i + 1)) = Ok d1 ∧ extends d d1).
  { destruct (pos_charge _); [|destruct (neg_charge _)].
    - destruct (extract_atom_from_ion_keys true f d 0 Hf) as (d1 & ? & ? & _); eauto.
    - destruct (extract_atom_from_ion_keys false f d 0 Hf) as (d1 & ? & ? & _); eauto.
    - by apply extract_atom_from_molecule_keys. }
  destruct Hstep as (d1 & -> & Hd1). cbn [mbind result_bind].
  destruct (IH (i + 1) d1) as (d' & -> & Hd'). eauto.
Qed.

Lemma cluster_loop_keys resname frags :
  Forall (fun f => f ≠ []) frags →
  ∀ cn an mn d, ∃ d', cluster_loop resname frags cn an mn d = Ok d' ∧ extends d d'.
Proof.
  induction 1 as [|f frags Hf _ IH]; intros cn an mn d; simpl; [eauto|].
  destruct (pos_charge _); [|destruct (neg_charge _)].
  - destruct (extract_atom_from_ion_keys true f d cn Hf) as (d1 & -> & Hd1 & _).
    cbn [mbind result_bind]. destruct (IH (cn + 1) an mn d1) as (d' & -> & Hd'). eauto.
  - destruct (extract_atom_from_ion_keys false f d an Hf) as (d1 & -> & Hd1 & _).
    cbn [mbind result_bind]. destruct (IH cn (an + 1) mn d1) as (d' & -> & Hd'). eauto.
  - destruct (extract_atom_from_molecule_keys resname f d mn Hf) as (d1 & -> & Hd1).
    cbn [mbind result_bind]. destruct (IH cn an (mn + 1) d1) as (d' & -> & Hd'). eauto.
Qed.

(** On a residue with atoms and without empty fragment the classifier
    returns, and only adds keys. *)
Lemma classify_residue_keys rn r d :
  atoms r ≠ [] → Forall (fun f => f ≠ []) (fragments r) →
  ∃ d', classify_residue rn r d = Ok d' ∧ extends d d'.
Proof.
  intros Ha Hf. unfold classify_residue.
  destruct (np_isclose _ _ _); [destruct (bool_decide _); [|destruct (bool_decide _)]|
                                destruct (Qgt_bool _ _)].
  - by apply pair_loop_keys.
  - by apply cluster_loop_keys.
  - by apply extract_atom_from_molecule_keys.
  - destruct (extract_atom_from_ion_keys true (atoms r) d 0 Ha) as (d' & ? & ? & _); eauto.
  - destruct (extract_atom_from_ion_keys false (atoms r) d 0 Ha) as (d' & ? & ? & _); eauto.
Qed.

Lemma first_residue_elem u rn r :
  first_residue u rn = Ok r → r ∈ u ∧ resname r = rn.
Proof.
  unfold first_residue.
  destruct (filter _ u) as [|r' l] eqn:Hf; [done|]. intros [= ->].
  assert (Hin : r ∈ filter (fun r => resname r = rn ∧ atoms r ≠ []) u)
    by (rewrite Hf; left).
  apply list_elem_of_filter in Hin. tauto.
Qed.

Lemma first_residue_total u rn :
  universe_wf u → rn ∈ map resname u → ∃ r, first_residue u rn = Ok r.
Proof.
  intros Hwf (r & -> & Hr)%list_elem_of_fmap. unfold first_residue.
  assert (Hin : r ∈ filter (fun r' => resname r' = resname r ∧ atoms r' ≠ []) u).
  { apply list_elem_of_filter. split; [|done]. split; [done|].
    by apply (universe_wf_elem u r). }
  destruct (filter _ u); [by apply elem_of_nil in Hin|]. eauto.
Qed.

(** The first residue of a name is the one the classifier reads. *)
Lemma first_residue_first pre r post :
  atoms r ≠ [] → Forall (fun r' => resname r' ≠ resname r) pre →
  first_residue (pre ++ r :: post) (resname r) = Ok r.
Proof.
  intros Ha Hpre. unfold first_residue. rewrite filter_app.
  assert (Hnil : filter (fun r' => resname r' = resname r ∧ atoms r' ≠ []) pre = []).
  { induction Hpre as [|r' pre Hr' _ IH]; [done|].
    rewrite filter_cons, decide_False; [done|]. by intros [? _]. }
  rewrite Hnil. simpl. rewrite filter_cons, decide_True; done.
Qed.

Lemma resname_loop_keys u resnames :
  universe_wf u → Forall (fun rn => rn ∈ map resname u) resnames →
  ∀ d, ∃ d', resname_loop u resnames d = Ok d' ∧ extends d d'.
Proof.
  intros Hwf. induction 1 as [|rn resnames Hrn _ IH]; intros d; simpl; [eauto|].
  destruct (bool_decide (rn = "")); [apply IH|].
  destruct (first_residue_total u rn Hwf Hrn) as [r Hr]. rewrite Hr.
  cbn [mbind result_bind]. apply first_residue_elem in Hr as [Hin _].
  destruct (universe_wf_elem u r Hwf Hin) as [Ha Hf].
  destruct (classify_residue_keys rn r d Ha Hf) as (d1 & -> & Hd1).
  cbn [mbind result_bind]. destruct (IH d1) as (d' & -> & Hd'). eauto.
Qed.

(** A key the classifier writes for the residue of [rn], whatever the
    dictionary it starts from, is in the result of the loop. *)
Lemma resname_loop_key u resnames rn r k :
  universe_wf u → Forall (fun rn => rn ∈ map resname u) resnames →
  rn ∈ resnames → rn ≠ "" → first_residue u rn = Ok r →
  (∀ d d', classify_residue rn r d = Ok d' → k ∈ dict_keys d') →
  ∀ d, ∃ d', resname_loop u resnames d = Ok d' ∧ k ∈ dict_keys d'.
Proof.
  intros Hwf Hall Hin Hne Hr Hk.
  induction Hall as [|rn' resnames Hrn' Hall IH]; intros d.
  { by apply elem_of_nil in Hin. }
  simpl. destruct (decide (rn' = rn)) as [->|Hne'].
  - rewrite bool_decide_false by done. rewrite Hr. cbn [mbind result_bind].
    pose proof Hr as [Hru _]%first_residue_elem.
    destruct (universe_wf_elem u r Hwf Hru) as [Ha Hf].
    destruct (classify_residue_keys rn r d Ha Hf) as (d1 & Hd1 & _).
    rewrite Hd1. cbn [mbind result_bind].
    destruct (resname_loop_keys u resnames Hwf Hall d1) as (d' & -> & Hd'). eauto.
  - apply elem_of_cons in Hin as [?|Hin]; [congruence|].
    destruct (bool_decide (rn' = "")); [by apply IH|].
    destruct (first_residue_total u rn' Hwf Hrn') as [r' Hr'].
    rewrite Hr'. cbn [mbind result_bind].
    apply first_residue_elem in Hr' as [Hin' _].
    destruct (universe_wf_elem u r' Hwf Hin') as [Ha Hf].
    destruct (classify_residue_keys rn' r' d Ha Hf) as (d1 & -> & _).
    cbn [mbind result_bind]. by apply IH.
Qed.

Lemma np_unique_elem (l : list string) x : x ∈ np_unique l ↔ x ∈ l.
Proof.
  unfold np_unique. destruct (np_unique_counts_spec l) as [_ Hget].
  change (map fst (np_unique_counts l)) with (dict_keys (np_unique_counts l)).
  rewrite dict_get_Some_keys, Hget. destruct (decide (x ∈ l)); split; eauto.
  - by intros [? [=]].
  - done.
Qed.

Lemma np_isclose_zero (a : Q) :
  np_isclose a 0 (1 # 100000) = true ↔ (Qabs a <= 1 # 100000)%Q.
Proof.
  unfold np_isclose. rewrite Qle_bool_iff.
  assert (H1 : (a - 0 == a)%Q) by ring.
  assert (H2 : ((1 # 100000) + (1 # 100000) * Qabs 0 == 1 # 100000)%Q) by reflexivity.
  by rewrite H1, H2.
Qed.

Lemma charged_nonempty (f : list Atom) (c : Q) :
  (np_sum (map charge f) == c)%Q → ¬ (c == 0)%Q → f ≠ [].
Proof. intros Hc Hne ->. apply Hne. by rewrite <- Hc. Qed.

Lemma pos_charge_one (c : Q) : (c == 1)%Q → pos_charge c = true.
Proof. intros Hc. apply Qgt_bool_true. lra. Qed.

Lemma neg_charge_minus_one (c : Q) :
  (c == -1)%Q → pos_charge c = false ∧ neg_charge c = true.
Proof.
  intros Hc. split; [apply Qgt_bool_false | apply Qgt_bool_true]; lra.
Qed.

(** The two fragments of an ion pair give the keys "cation" and "anion". *)
Lemma pair_loop_ion_pair rn (f1 f2 : list Atom) d :
  (np_sum (map charge f1) == 1 ∧ np_sum (map charge f2) == -1
   ∨ np_sum (map charge f1) == -1 ∧ np_sum (map charge f2) == 1)%Q →
  ∃ d', pair_loop rn [f1; f2] 0 d = Ok d'
    ∧ "cation" ∈ dict_keys d' ∧ "anion" ∈ dict_keys d'.
Proof.
  intros [[H1 H2]|[H1 H2]]; cbn [pair_loop].
  - rewrite (pos_charge_one _ H1).
    destruct (neg_charge_minus_one _ H2) as [-> ->].
    destruct (extract_atom_from_ion_keys true f1 d 0) as (d1 & -> & _ & Hc).
    { apply (charged_nonempty f1 1 H1). lra. }
    cbn [mbind result_bind].
    destruct (extract_atom_from_ion_keys false f2 d1 0) as (d2 & -> & Hext & Ha).
    { apply (charged_nonempty f2 (-1) H2). lra. }
    cbn [mbind result_bind]. eexists. split; [done|]. split; [by apply Hext | done].
  - rewrite (pos_charge_one _ H2).
    destruct (neg_charge_minus_one _ H1) as [-> ->].
    destruct (extract_atom_from_ion_keys false f1 d 0) as (d1 & -> & _ & Ha).
    { apply (charged_nonempty f1 (-1) H1). lra. }
    cbn [mbind result_bind].
    destruct (extract_atom_from_ion_keys true f2 d1 0) as (d2 & -> & Hext & Hc).
    { apply (charged_nonempty f2 1 H2). lra. }
    cbn [mbind result_bind]. eexists. split; [done|]. split; [done | by apply Hext].
Qed.

(** ** Which entries the classifier leaves alone *)

Lemma ion_name_prefix (positive : bool) (number : Z) (rest : string) :
  String.prefix (if positive then "cation" else "anion")
    (ion_name (if positive then "cation" else "anion") number +:+ rest) = true.
Proof. unfold ion_name. destruct positive, (bool_decide _), rest; reflexivity. Qed.

Lemma ion_name_prefix_bare (positive : bool) (number : Z) :
  String.prefix (if positive then "cation" else "anion")
    (ion_name (if positive then "cation" else "anion") number) = true.
Proof. unfold ion_name. destruct positive, (bool_decide _); reflexivity. Qed.

(** The keys [extract_atom_from_ion] writes begin with "cation" or
    "anion". *)
Lemma extract_atom_from_ion_frame positive ion d number d' k :
  String.prefix "cation" k = false → String.prefix "anion" k = false →
  extract_atom_from_ion positive ion d number = Ok d' → dict_get d' k = dict_get d k.
Proof.
  intros Hc Ha.
  assert (Hrest : ∀ rest,
            k ≠ ion_name (if positive then "cation" else "anion") number +:+ rest).
  { intros rest ->. pose proof (ion_name_prefix positive number rest).
    destruct positive; congruence. }
  assert (Hbare : k ≠ ion_name (if positive then "cation" else "anion") number).
  { intros ->. pose proof (ion_name_prefix_bare positive number).
    destruct positive; congruence. }
  destruct (decide (ion = [])) as [->|Hne].
  { by destruct positive. }
  destruct (extract_atom_from_ion_spec positive ion d number Hne) as (i & c & t & _ & _ & ->).
  intros [= <-]. cbn zeta. destruct (bool_decide _).
  - by apply dict_get_set_ne.
  - rewrite !dict_get_set_ne; [done| |done]. apply Hrest.
Qed.

(** The keys [extract_atom_from_molecule] writes are the name of the
    residue, bare or with a serial number. *)
Lemma extract_atom_from_molecule_frame rn molecule d number d' k :
  k ≠ rn → (∀ n, k ≠ rn +:+ "_" +:+ str n) →
  extract_atom_from_molecule rn molecule d number = Ok d' → dict_get d' k = dict_get d k.
Proof.
  intros Hbare Hnum.
  destruct (decide (molecule = [])) as [->|Hne]; [done|].
  destruct (extract_atom_from_molecule_spec rn molecule d number Hne) as (i & c & _ & ->).
  intros [= <-]. apply dict_get_set_ne. destruct (0 <? number)%Z; [apply Hnum | done].
Qed.

Lemma pair_loop_frame rn k frags :
  String.prefix "cation" k = false → String.prefix "anion" k = false →
  k ≠ rn → (∀ n, k ≠ rn +:+ "_" +:+ str n) →
  ∀ i d d', pair_loop rn frags i d = Ok d' → dict_get d' k = dict_get d k.
Proof.
  intros Hc Ha Hbare Hnum. induction frags as [|f frags IH]; intros i d d'; simpl.
  { by intros [= <-]. }
  destruct (pos_charge _) eqn:Hpos; [|destruct (neg_charge _) eqn:Hneg].
  - destruct (extract_atom_from_ion true f d 0) as [d1|e] eqn:Hd1;
      cbn [mbind result_bind]; [|done].
    intros Hd'. rewrite (IH _ _ _ Hd').
    by apply (extract_atom_from_ion_frame true f d 0).
  - destruct (extract_atom_from_ion false f d 0) as [d1|e] eqn:Hd1;
      cbn [mbind result_bind]; [|done].
    intros Hd'. rewrite (IH _ _ _ Hd').
    by apply (extract_atom_from_ion_frame false f d 0).
  - destruct (extract_atom_from_molecule rn f d (i + 1)) as [d1|e] eqn:Hd1;
      cbn [mbind result_bind]; [|done].
    intros Hd'. rewrite (IH _ _ _ Hd').
    by apply (extract_atom_from_molecule_frame rn f d (i + 1)).
Qed.

Lemma cluster_loop_frame rn k frags :
  String.prefix "cation" k = false → String.prefix "anion" k = false →
  k ≠ rn → (∀ n, k ≠ rn +:+ "_" +:+ str n) →
  ∀ cn an mn d d', cluster_loop rn frags cn an mn d = Ok d' →
    dict_get d' k = dict_get d k.
Proof.
  intros Hc Ha Hbare Hnum. induction frags as [|f frags IH]; intros cn an mn d d'; simpl.
  { by intros [= <-]. }
  destruct (pos_charge _) eqn:Hpos; [|destruct (neg_charge _) eqn:Hneg].
  - destruct (extract_atom_from_ion true f d cn) as [d1|e] eqn:Hd1;
      cbn [mbind result_bind]; [|done].
    intros Hd'. rewrite (IH _ _ _ _ _ Hd').
    by apply (extract_atom_from_ion_frame true f d cn).
  - destruct (extract_atom_from_ion false f d an) as [d1|e] eqn:Hd1;
      cbn [mbind result_bind]; [|done].
    intros Hd'. rewrite (IH _ _ _ _ _ Hd').
    by apply (extract_atom_from_ion_frame false f d an).
  - destruct (extract_atom_from_molecule rn f d mn) as [d1|e] eqn:Hd1;
      cbn [mbind result_bind]; [|done].
    intros Hd'. rewrite (IH _ _ _ _ _ Hd').
    by apply (extract_atom_from_molecule_frame rn f d mn).
Qed.

(** The classifier writes ion keys and keys made of the name it
    classifies: it leaves every other key alone. *)
Lemma classify_residue_frame rn r k :
  String.prefix "cation" k = false → String.prefix "anion" k = false →
  k ≠ rn → (∀ n, k ≠ rn +:+ "_" +:+ str n) →
  leaves_key rn r k.
Proof.
  intros Hc Ha Hbare Hnum d d'. unfold classify_residue.
  destruct (np_isclose _ _ _); [destruct (bool_decide _); [|destruct (bool_decide _)]|
                                destruct (Qgt_bool _ _)].
  - by apply pair_loop_frame.
  - by apply cluster_loop_frame.
  - by apply extract_atom_from_molecule_frame.
  - by apply extract_atom_from_ion_frame.
  - by apply extract_atom_from_ion_frame.
Qed.

(** A string comes before each of its proper extensions. *)
Lemma compare_append_lt (s t : string) :
  t ≠ "" → String.compare s (s +:+ t) = Lt.
Proof.
  intros Ht. induction s as [|a s IH]; simpl.
  - by destruct t.
  - unfold Ascii.compare. by rewrite N.compare_refl.
Qed.

(** A name that does not read like an ion key is left alone by the
    classification of every greater name. *)
Lemma later_name_leaves rn rn' r' :
  String.prefix "cation" rn = false → String.prefix "anion" rn = false →
  String.compare rn rn' = Lt →
  leaves_key rn' r' rn.
Proof.
  intros Hc Ha Hlt. apply classify_residue_frame; [done..| |].
  - intros ->. by rewrite compare_refl in Hlt.
  - intros n ->. rewrite String.compare_antisym, compare_append_lt in Hlt; done.
Qed.

Lemma resname_loop_app u l1 l2 d :
  resname_loop u (l1 ++ l2) d = d1 ← resname_loop u l1 d; resname_loop u l2 d1.
Proof.
  revert d. induction l1 as [|rn l1 IH]; intros d; simpl; [done|].
  destruct (bool_decide (rn = "")); [apply IH|].
  destruct (first_residue u rn) as [r|e]; cbn [mbind result_bind]; [|done].
  destruct (classify_residue rn r d) as [d1|e]; cbn [mbind result_bind]; [apply IH|done].
Qed.

(** The loop leaves the entry of a key as it was when the classification
    of each of the names does. *)
Lemma resname_loop_frame u k resnames :
  (∀ rn' r', rn' ∈ resnames → first_residue u rn' = Ok r' → leaves_key rn' r' k) →
  ∀ d d', resname_loop u resnames d = Ok d' → dict_get d' k = dict_get d k.
Proof.
  induction resnames as [|rn resnames IH]; intros Hleave d d'; simpl.
  { by intros [= <-]. }
  assert (Hrest : ∀ rn' r', rn' ∈ resnames → first_residue u rn' = Ok r' →
                    leaves_key rn' r' k).
  { intros rn' r' Hin. apply Hleave. by right. }
  destruct (bool_decide (rn = "")); [by apply IH|].
  destruct (first_residue u rn) as [r|e] eqn:Hr; cbn [mbind result_bind]; [|done].
  destruct (classify_residue rn r d) as [d1|e] eqn:Hd1; cbn [mbind result_bind]; [|done].
  intros Hd'. rewrite (IH Hrest d1 d' Hd'). apply (Hleave rn r); [left|done..].
Qed.

(** [np.unique] returns the names in increasing order: the names after a
    given one are greater. *)
Lemma np_unique_split (l : list string) rn :
  rn ∈ l →
  ∃ l1 l2, np_unique l = l1 ++ rn :: l2
    ∧ ∀ x, x ∈ l2 → String.compare rn x = Lt.
Proof.
  intros Hin%np_unique_elem. apply list_elem_of_lookup in Hin as [i Hi].
  exists (take i (np_unique l)), (drop (S i) (np_unique l)). split.
  { symmetry. by apply take_drop_middle. }
  intros x [j Hj]%list_elem_of_lookup. rewrite lookup_drop in Hj.
  unfold np_unique in Hi, Hj. change map with (@fmap list _) in Hi, Hj.
  rewrite list_lookup_fmap in Hi, Hj.
  destruct (np_unique_counts l !! i) as [[rn0 n]|] eqn:Hi'; [|done].
  destruct (np_unique_counts l !! (S i + j)%nat) as [[x0 m]|] eqn:Hj'; [|done].
  simpl in Hi, Hj. injection Hi as ->. injection Hj as ->.
  destruct (np_unique_counts_spec l) as [Hsorted _].
  apply (sorted_lookup_lt key_lt _ Hsorted i (S i + j) (rn, n) (x, m)); [lia|done..].
Qed.

(** C1, amended.  Let [r] be the first residue of the universe carrying
    its name, a name that is not empty, with a total charge within 1e-5 of
    zero.  If [r] has exactly two fragments, of net charges +1 and -1,
    [select_dict_from_resname] returns a select_dict with the keys "cation"
    and "anion".  If [r] has a single fragment, the classifier records for
    it one entry, the bare name of [r] with "type T", T the type of the first
    atom of least charge of [r]; the returned select_dict has this name
    among its keys, and it holds "type T" under it when no name classified
    after that of [r], that is no greater name, has a residue whose
    classification changes the entry of this key: so it is, in particular,
    when the name of [r] begins neither with "cation" nor with "anion". *)
Theorem select_dict_from_first_residue (pre post : list Residue) (r : Residue) :
  universe_wf (pre ++ r :: post) →
  Forall (fun r' => resname r' ≠ resname r) pre →
  resname r ≠ "" →
  (Qabs (residue_charge r) <= 1 # 100000)%Q →
  (∀ f1 f2,
     fragments r = [f1; f2] →
     (np_sum (map charge f1) == 1 ∧ np_sum (map charge f2) == -1
      ∨ np_sum (map charge f1) == -1 ∧ np_sum (map charge f2) == 1)%Q →
     ∃ d, select_dict_from_resname (pre ++ r :: post) = Ok d
       ∧ "cation" ∈ dict_keys d ∧ "anion" ∈ dict_keys d)
  ∧ (∀ f i center,
       fragments r = [f] →
       is_extremal false (atoms r) i center →
       (∀ d, classify_residue (resname r) r d
             = Ok (dict_set d (resname r) ("type " +:+ atom_type center)))
       ∧ ∃ d, select_dict_from_resname (pre ++ r :: post) = Ok d
           ∧ resname r ∈ dict_keys d
           ∧ ((∀ rn' r', String.compare (resname r) rn' = Lt →
                 first_residue (pre ++ r :: post) rn' = Ok r' →
                 leaves_key rn' r' (resname r)) →
              dict_get d (resname r) = Some ("type " +:+ atom_type center))
           ∧ (String.prefix "cation" (resname r) = false →
              String.prefix "anion" (resname r) = false →
              dict_get d (resname r) = Some ("type " +:+ atom_type center))).
Proof.
  intros Hwf Hpre Hname Hzero. apply np_isclose_zero in Hzero.
  set (u := pre ++ r :: post) in *.
  assert (Hru : r ∈ u) by (apply elem_of_app; right; left).
  destruct (universe_wf_elem u r Hwf Hru) as [Ha Hf].
  pose proof (first_residue_first pre r post Ha Hpre) as Hfirst. fold u in Hfirst.
  assert (Hall : Forall (fun rn => rn ∈ map resname u) (np_unique (map resname u))).
  { apply Forall_forall. intros rn. by rewrite np_unique_elem. }
  assert (Hin : resname r ∈ np_unique (map resname u)).
  { apply np_unique_elem. by apply (list_elem_of_fmap_2 resname). }
  unfold select_dict_from_resname. split.
  - intros f1 f2 Hfr Hcharges.
    assert (Hk : ∀ d d', classify_residue (resname r) r d = Ok d' →
                   "cation" ∈ dict_keys d' ∧ "anion" ∈ dict_keys d').
    { intros d d'. unfold classify_residue. rewrite Hzero, Hfr. simpl.
      destruct (pair_loop_ion_pair (resname r) f1 f2 d Hcharges) as (d2 & Hd2 & ?).
      cbn [pair_loop] in Hd2. rewrite Hd2. by intros [= <-]. }
    destruct (resname_loop_key u _ (resname r) r "cation" Hwf Hall Hin Hname Hfirst
                ltac:(intros d d' H; by apply (Hk d d')) []) as (d & Hd & Hc).
    destruct (resname_loop_key u _ (resname r) r "anion" Hwf Hall Hin Hname Hfirst
                ltac:(intros d0 d' H; by apply (Hk d0 d')) []) as (d' & Hd' & Han).
    exists d. split; [done|]. split; [done|]. congruence.
  - intros f i center Hfr Hext.
    assert (Hstep : ∀ d, classify_residue (resname r) r d
                         = Ok (dict_set d (resname r) ("type " +:+ atom_type center))).
    { intros d. unfold classify_residue. rewrite Hzero, Hfr. simpl.
      destruct (extract_atom_from_molecule_spec (resname r) (atoms r) d 0 Ha)
        as (i' & center' & Hext' & ->).
      by destruct (is_extremal_unique _ _ _ _ _ _ Hext Hext') as [_ <-]. }
    split; [done|].
    destruct (np_unique_split (map resname u) (resname r)) as (l1 & l2 & Hsplit & Hafter).
    { by apply (list_elem_of_fmap_2 resname). }
    rewrite Hsplit in Hall |- *. apply Forall_app in Hall as [Hall1 Hall2].
    apply Forall_cons in Hall2 as [_ Hall2].
    rewrite resname_loop_app.
    destruct (resname_loop_keys u l1 Hwf Hall1 []) as (d1 & -> & _).
    cbn [mbind result_bind resname_loop].
    rewrite bool_decide_false by done. rewrite Hfirst. cbn [mbind result_bind].
    rewrite Hstep. cbn [mbind result_bind].
    destruct (resname_loop_keys u l2 Hwf Hall2
                (dict_set d1 (resname r) ("type " +:+ atom_type center)))
      as (d' & Hd' & Hext').
    exists d'. split; [done|]. split; [apply Hext', set_key|].
    assert (Hsem : (∀ rn' r', String.compare (resname r) rn' = Lt →
                      first_residue u rn' = Ok r' → leaves_key rn' r' (resname r)) →
                   dict_get d' (resname r) = Some ("type " +:+ atom_type center)).
    { intros Hleave.
      rewrite (resname_loop_frame u (resname r) l2)
        with (d := dict_set d1 (resname r) ("type " +:+ atom_type center)) (d' := d');
        [apply dict_get_set_eq| |done].
      intros rn' r' Hrn'. apply Hleave. by apply Hafter. }
    split; [exact Hsem|]. intros Hc Han. apply Hsem.
    intros rn' r' Hlt _. by apply later_name_leaves.
Qed.

Lemma select_dict_from_first_residue_witness :
  (∃ d, select_dict_from_resname [pair_residue "LiCl"; water_residue "SOL"] = Ok d
     ∧ "cation" ∈ dict_keys d ∧ "anion" ∈ dict_keys d)
  ∧ (∀ d, classify_residue "SOL" (water_residue "SOL") d
          = Ok (dict_set d "SOL" ("type " +:+ "O")))
  ∧ ∃ d, select_dict_from_resname
           [pair_residue "LiCl"; water_residue "SOL"; cation_residue "li"] = Ok d
      ∧ dict_get d "SOL" = Some ("type " +:+ "O").
Proof.
  split.
  - refine (proj1 (select_dict_from_first_residue [] [water_residue "SOL"]
                     (pair_residue "LiCl") _ _ _ _) [Li_atom] [Cl_atom] _ _).
    + repeat (apply Forall_cons; split; [split; [discriminate|]|]);
        repeat (apply Forall_cons; split; [discriminate|]); constructor.
    + constructor.
    + discriminate.
    + vm_compute. discriminate.
    + reflexivity.
    + left. split; reflexivity.
  - pose proof (proj2 (select_dict_from_first_residue [pair_residue "LiCl"]
                         [cation_residue "li"] (water_residue "SOL")
                         ltac:(repeat (apply Forall_cons; split; [split; [discriminate|]|]);
                               repeat (apply Forall_cons; split; [discriminate|]); constructor)
                         ltac:(repeat (apply Forall_cons; split; [discriminate|]); constructor)
                         ltac:(discriminate)
                         ltac:(vm_compute; discriminate))
                  [O_atom; H1_atom; H2_atom] 0%nat O_atom) as H.
    destruct H as [Hstep (d & Hd & _ & Hget & _)].
    + reflexivity.
    + split; [reflexivity|]. split.
      * intros a Ha. cbn [atoms water_residue] in Ha.
        rewrite !elem_of_cons, elem_of_nil in Ha.
        destruct Ha as [->|[->|[->|[]]]]; vm_compute; discriminate.
      * intros j a Hj. lia.
    + split; [exact Hstep|]. exists d. split; [exact Hd|]. apply Hget.
      intros rn' r' Hlt [Hin <-]%first_residue_elem.
      cbn [app] in Hin. rewrite !elem_of_cons, elem_of_nil in Hin.
      destruct Hin as [->|[->|[->|[]]]]; [discriminate Hlt..|].
      intros d0 d0'. change (classify_residue _ _ d0)
        with (Ok (dict_set d0 "cation" "type Li")).
      intros [= <-]. by apply dict_get_set_ne.
Defined.

(** C1 as stated fails: the first universe below contains a residue of
    total charge zero with two fragments of net charges +1 and -1, yet the
    classifier reads the first residue of that name only, a bare cation,
    and the select_dict it returns has no "anion" entry; in the second
    universe the same residue has the empty name and is skipped.  In the
    same way a water molecule, neutral and of one fragment, gets no entry
    when a bare cation is the first residue of its name or when its name is
    empty.  In the last universe the water molecule is named "cation": the
    classifier records "type O" under this name, then the lithium ion,
    whose name comes later in the order of [np.unique], replaces it by
    "type Li". *)
Lemma select_dict_from_resname_counterexample :
  pair_residue "LiCl" ∈ [cation_residue "LiCl"; pair_residue "LiCl"]
  ∧ (Qabs (residue_charge (pair_residue "LiCl")) <= 1 # 100000)%Q
  ∧ map (fun f => np_sum (map charge f)) (fragments (pair_residue "LiCl")) = [1%Q; (-1)%Q]
  ∧ select_dict_from_resname [cation_residue "LiCl"; pair_residue "LiCl"]
    = Ok [("cation", "type Li")]
  ∧ dict_get [("cation", "type Li")] "anion" = None
  ∧ select_dict_from_resname [pair_residue ""] = Ok []
  ∧ (∀ rn, (Qabs (residue_charge (water_residue rn)) <= 1 # 100000)%Q
           ∧ length (fragments (water_residue rn)) = 1%nat)
  ∧ select_dict_from_resname [cation_residue "SOL"; water_residue "SOL"]
    = Ok [("cation", "type Li")]
  ∧ select_dict_from_resname [water_residue ""] = Ok []
  ∧ classify_residue "cation" (water_residue "cation") [] = Ok [("cation", "type O")]
  ∧ np_unique (map resname [water_residue "cation"; cation_residue "lithium"])
    = ["cation"; "lithium"]
  ∧ select_dict_from_resname [water_residue "cation"; cation_residue "lithium"]
    = Ok [("cation", "type Li")].
Proof.
  split; [right; left|]. split; [vm_compute; discriminate|].
  do 4 (split; [vm_compute; reflexivity|]).
  split; [intros rn; split; [vm_compute; discriminate | reflexivity]|].
  repeat split; vm_compute; reflexivity.
Qed.

(** * Further properties *)

(** ** Assigning residue names *)

Section AssignFacts.
Variable select_residues : list string → string → list nat.
Implicit Types (items : list (string * string)) (resnames : list string).

Lemma assign_group_lookup key group resnames i :
  assign_group key group resnames !! i
  = (fun name => if bool_decide (i ∈ group) && bool_decide (name = "") then key else name)
      <$> resnames !! i.
Proof. unfold assign_group. apply list_lookup_imap. Qed.

Lemma assign_group_length key group resnames :
  length (assign_group key group resnames) = length resnames.
Proof. apply length_imap. Qed.

Lemma assign_loop_length items :
  ∀ resnames, length (assign_loop select_residues items resnames) = length resnames.
Proof.
  induction items as [|[key val] items IH]; intros resnames; simpl; [done|].
  rewrite IH. apply assign_group_length.
Qed.

Lemma assign_loop_app items1 items2 resnames :
  assign_loop select_residues (items1 ++ items2) resnames
  = assign_loop select_residues items2 (assign_loop select_residues items1 resnames).
Proof.
  revert resnames. induction items1 as [|[key val] items1 IH]; intros resnames; simpl; auto.
Qed.

Lemma assign_loop_keeps items :
  ∀ resnames i name, resnames !! i = Some name → name ≠ "" →
    assign_loop select_residues items resnames !! i = Some name.
Proof.
  induction items as [|[key val] items IH]; intros resnames i name Hi Hne; simpl; [done|].
  apply IH; [|done]. rewrite assign_group_lookup, Hi. simpl.
  by rewrite (bool_decide_false (name = "")), andb_false_r.
Qed.

(** The name of a residue stays empty along entries that have the empty
    key or do not select the residue. *)
Lemma assign_loop_blank items :
  ∀ resnames i, resnames !! i = Some "" →
    (∀ key val, (key, val) ∈ items →
       key = "" ∨ ∀ names, i ∉ select_residues names val) →
    assign_loop select_residues items resnames !! i = Some "".
Proof.
  induction items as [|[key val] items IH]; intros resnames i Hi Hall; simpl; [done|].
  apply IH.
  - rewrite assign_group_lookup, Hi. simpl.
    destruct (Hall key val ltac:(left)) as [->|Hsel].
    + by destruct (bool_decide _).
    + by rewrite (bool_decide_false _ (Hsel resnames)).
  - intros k v Hin. apply Hall. by right.
Qed.

Lemma assign_loop_blank_inv items :
  (∀ n1 n2 val, select_residues n1 val = select_residues n2 val) →
  ∀ resnames i, assign_loop select_residues items resnames !! i = Some "" →
    ∀ key val, (key, val) ∈ items →
      key = "" ∨ i ∉ select_residues resnames val.
Proof.
  intros Hind. induction items as [|[k0 v0] items IH]; intros resnames i Hfin key val Hin.
  { by apply elem_of_nil in Hin. }
  simpl in Hfin. apply elem_of_cons in Hin as [[= -> ->]|Hin].
  - destruct (decide (k0 = "")) as [?|Hk]; [by left|]. right. intros Hsel.
    assert (Hlt : (i < length resnames)%nat).
    { apply lookup_lt_Some in Hfin. by rewrite assign_loop_length, assign_group_length in Hfin. }
    destruct (lookup_lt_is_Some_2 resnames i Hlt) as [n Hn].
    assert (∃ x, assign_group k0 (select_residues resnames v0) resnames !! i = Some x
                 ∧ x ≠ "") as (x & Hx & Hxne).
    { rewrite assign_group_lookup, Hn. simpl. rewrite bool_decide_true by done. simpl.
      destruct (decide (n = "")) as [->|Hnne].
      - rewrite bool_decide_true by done. eauto.
      - rewrite bool_decide_false by done. eauto. }
    rewrite (assign_loop_keeps items _ i x Hx Hxne) in Hfin. congruence.
  - rewrite (Hind resnames (assign_group k0 (select_residues resnames v0) resnames)).
    by apply (IH _ i Hfin).
Qed.

Lemma replicate_blank (n i : nat) :
  (i < n)%nat → replicate n "" !! i = Some "".
Proof. intros Hi. by apply lookup_replicate_2. Qed.

Lemma assign_loop_fixed items :
  (∀ n1 n2 val, select_residues n1 val = select_residues n2 val) →
  ∀ resnames,
    (∀ i, resnames !! i = Some "" →
       ∀ key val, (key, val) ∈ items → key = "" ∨ i ∉ select_residues resnames val) →
    assign_loop select_residues items resnames = resnames.
Proof.
  intros Hind. induction items as [|[k0 v0] items IH]; intros resnames Hall; simpl; [done|].
  assert (Hstep : assign_group k0 (select_residues resnames v0) resnames = resnames).
  { apply list_eq. intros i. rewrite assign_group_lookup.
    destruct (resnames !! i) as [n|] eqn:Hn; simpl; [|done]. f_equal.
    destruct (bool_decide_reflect (i ∈ select_residues resnames v0)) as [Hsel|]; [|done].
    destruct (bool_decide_reflect (n = "")) as [->|]; [|done]. simpl.
    destruct (Hall i Hn k0 v0 ltac:(left)); done. }
  rewrite Hstep. apply IH. intros i Hi key val Hin. apply Hall; [done | by right].
Qed.
End AssignFacts.

(** X1.  [assign_resname] keeps the number of residues, and a name that
    the entries of a prefix of [res_dict] have given to a residue is not
    changed by the entries that follow. *)
Theorem assign_resname_keeps_assigned (select_residues : list string → string → list nat)
    (resnames : list string) (pre post : list (string * string)) :
  length (assign_resname select_residues resnames (pre ++ post)) = length resnames
  ∧ ∀ i name, assign_resname select_residues resnames pre !! i = Some name →
      name ≠ "" →
      assign_resname select_residues resnames (pre ++ post) !! i = Some name.
Proof.
  unfold assign_resname. split.
  - by rewrite assign_loop_length, length_replicate.
  - intros i name Hi Hne. rewrite assign_loop_app. by apply assign_loop_keeps.
Qed.

Lemma assign_resname_keeps_assigned_witness :
  assign_resname (fun _ _ => [0; 1]%nat) ["EC"; ""]
    ([("Li", "resid 1-2")] ++ [("PF6", "resid 1-2")]) !! 0%nat
  = Some "Li".
Proof.
  refine (proj2 (assign_resname_keeps_assigned _ _ _ _) 0%nat "Li" _ _);
    [reflexivity | discriminate].
Defined.

(** X2.  Whatever name it had before, a residue takes the key of the first
    entry of [res_dict] that selects it and has a key other than the empty
    string: entries after it do not change the name. *)
Theorem assign_resname_first_entry (select_residues : list string → string → list nat)
    (resnames : list string) (pre post : list (string * string)) (key val : string)
    (i : nat) :
  (i < length resnames)%nat →
  key ≠ "" →
  (∀ names, i ∈ select_residues names val) →
  (∀ k v, (k, v) ∈ pre → k = "" ∨ ∀ names, i ∉ select_residues names v) →
  assign_resname select_residues resnames (pre ++ (key, val) :: post) !! i = Some key.
Proof.
  intros Hi Hkey Hsel Hpre. unfold assign_resname.
  rewrite assign_loop_app. simpl. apply assign_loop_keeps; [|done].
  rewrite assign_group_lookup.
  rewrite (assign_loop_blank select_residues pre _ i (replicate_blank _ i Hi) Hpre).
  simpl. by rewrite bool_decide_true.
Qed.

Lemma assign_resname_first_entry_witness :
  assign_resname (fun _ val => if bool_decide (val = "resid 1-2") then [0; 1]%nat else [1]%nat)
    ["EC"; ""] ([("EC", "resid 2-2")] ++ ("Li", "resid 1-2") :: [("PF6", "resid 1-2")])
    !! 0%nat
  = Some "Li".
Proof.
  apply assign_resname_first_entry.
  - simpl. lia.
  - discriminate.
  - intros _. simpl. left.
  - intros k v [[= -> ->]|[]%elem_of_nil]%elem_of_cons. right. intros _. simpl.
    rewrite list_elem_of_singleton. discriminate.
Defined.

(** X3.  A residue that no entry of [res_dict] selects ends with the empty
    name, whatever name it had before. *)
Theorem assign_resname_unselected (select_residues : list string → string → list nat)
    (resnames : list string) (res_dict : list (string * string)) (i : nat) :
  (i < length resnames)%nat →
  (∀ key val names, (key, val) ∈ res_dict → i ∉ select_residues names val) →
  assign_resname select_residues resnames res_dict !! i = Some "".
Proof.
  intros Hi Hunsel. unfold assign_resname.
  apply assign_loop_blank; [by apply replicate_blank|].
  intros key val Hin. right. intros names. eauto.
Qed.

Lemma assign_resname_unselected_witness :
  assign_resname (fun _ _ => [0]%nat) [""; "EC"] [("Li", "resid 1-1")] !! 1%nat = Some "".
Proof.
  apply assign_resname_unselected; [simpl; lia|].
  intros key val names _. rewrite list_elem_of_singleton. discriminate.
Defined.

(** X4.  When the selections do not depend on the residue names, running
    the loop over the same [res_dict] a second time changes nothing, from
    whatever names the first run started; so assigning the same [res_dict]
    a second time changes nothing. *)
Theorem assign_resname_idempotent (select_residues : list string → string → list nat)
    (resnames : list string) (res_dict : list (string * string)) :
  (∀ n1 n2 val, select_residues n1 val = select_residues n2 val) →
  assign_loop select_residues res_dict (assign_loop select_residues res_dict resnames)
  = assign_loop select_residues res_dict resnames
  ∧ assign_resname select_residues
      (assign_resname select_residues resnames res_dict) res_dict
    = assign_resname select_residues resnames res_dict.
Proof.
  intros Hind.
  assert (Hloop : ∀ names,
            assign_loop select_residues res_dict (assign_loop select_residues res_dict names)
            = assign_loop select_residues res_dict names).
  { intros names. apply assign_loop_fixed; [done|].
    intros i Hi key val Hin. rewrite (Hind _ names).
    by apply (assign_loop_blank_inv select_residues res_dict Hind names i Hi). }
  split; [apply Hloop|]. unfold assign_resname.
  by rewrite assign_loop_length, length_replicate.
Qed.

Lemma assign_resname_idempotent_witness :
  assign_loop (fun _ val => if bool_decide (val = "resid 1-2") then [0; 1]%nat else [2]%nat)
    [("Li", "resid 1-2"); ("PF6", "resid 3-3")]
    (assign_loop
       (fun _ val => if bool_decide (val = "resid 1-2") then [0; 1]%nat else [2]%nat)
       [("Li", "resid 1-2"); ("PF6", "resid 3-3")] [""; "EC"; ""; ""])
  = assign_loop (fun _ val => if bool_decide (val = "resid 1-2") then [0; 1]%nat else [2]%nat)
      [("Li", "resid 1-2"); ("PF6", "resid 3-3")] [""; "EC"; ""; ""]
  ∧ assign_resname (fun _ val => if bool_decide (val = "resid 1-2") then [0; 1]%nat else [2]%nat)
      (assign_resname
         (fun _ val => if bool_decide (val = "resid 1-2") then [0; 1]%nat else [2]%nat)
         [""; "EC"; ""; ""] [("Li", "resid 1-2"); ("PF6", "resid 3-3")])
      [("Li", "resid 1-2"); ("PF6", "resid 3-3")]
    = assign_resname (fun _ val => if bool_decide (val = "resid 1-2") then [0; 1]%nat else [2]%nat)
        [""; "EC"; ""; ""] [("Li", "resid 1-2"); ("PF6", "resid 3-3")].
Proof. apply assign_resname_idempotent. intros n1 n2 val. reflexivity. Defined.

(** ** Which entries the residue dictionary keeps *)

Lemma dict_set_elem {K V : Type} `{EqDecision K} (d : list (K * V)) k v k0 v0 :
  (k0, v0) ∈ dict_set d k v → (k0, v0) = (k, v) ∨ (k0, v0) ∈ d.
Proof.
  induction d as [|[k' v'] d IH]; simpl.
  - intros ->%list_elem_of_singleton. by left.
  - destruct (decide (k' = k)) as [->|Hne]; rewrite !elem_of_cons; intros [?|?]; auto.
    destruct IH as [?|?]; auto.
Qed.

Lemma dict_del_elem {K V : Type} `{EqDecision K} (d : list (K * V)) k k0 v0 :
  (k0, v0) ∈ dict_del d k → (k0, v0) ∈ d.
Proof.
  induction d as [|[k' v'] d IH]; simpl; [done|].
  destruct (decide (k' = k)); rewrite !elem_of_cons; [by right|].
  intros [?|?]; auto.
Qed.

Lemma dict_get_elem {K V : Type} `{EqDecision K} (d : list (K * V)) k v :
  dict_get d k = Some v → (k, v) ∈ d.
Proof.
  induction d as [|[k' v'] d IH]; simpl; [done|].
  destruct (decide (k' = k)) as [->|Hne].
  - intros [= ->]. left.
  - intros ?. right. auto.
Qed.

Section DedupFacts.
Context {AtomGroup : Type} `{EqDecision AtomGroup}.
Variable select_atoms : string → AtomGroup.
Implicit Types (items d : list (string * string)) (saved : list AtomGroup).

Lemma residue_loop_elem items :
  ∀ saved d k x, (k, x) ∈ residue_loop select_atoms items saved d →
    (k, x) ∈ d ∨ ∃ v, (k, v) ∈ items ∧ x = same_resid v.
Proof.
  induction items as [|[key val] items IH]; intros saved d k x Hin; simpl in Hin; [by left|].
  destruct (_ || _); apply IH in Hin as [Hin|(v & Hv & ->)].
  - apply dict_set_elem in Hin as [[= -> ->]|Hin]; [|by left].
    right. exists val. split; [left|done].
  - right. exists v. split; [by right|done].
  - by left.
  - right. exists v. split; [by right|done].
Qed.

Lemma residue_loop_extends items :
  ∀ saved d k, k ∈ dict_keys d → k ∈ dict_keys (residue_loop select_atoms items saved d).
Proof.
  induction items as [|[key val] items IH]; intros saved d k Hk; simpl; [done|].
  destruct (_ || _); apply IH; [|done]. apply dict_keys_set. by right.
Qed.

Lemma residue_loop_keys_from items :
  ∀ saved d k, k ∈ dict_keys (residue_loop select_atoms items saved d) →
    k ∈ dict_keys d ∨ k ∈ dict_keys items.
Proof.
  intros saved d k Hk. apply dict_get_Some_keys in Hk as [x Hx].
  apply dict_get_elem, residue_loop_elem in Hx as [Hx|(v & Hv & _)].
  - left. by apply (list_elem_of_fmap_2 fst _ (k, x)).
  - right. by apply (list_elem_of_fmap_2 fst _ (k, v)).
Qed.

(** A key is kept exactly when it is "cation" or "anion", or when no group
    saved so far and no earlier entry has the group of its selection. *)
Lemma residue_loop_kept items :
  NoDup (dict_keys items) →
  ∀ saved d pre key val post,
    items = pre ++ (key, val) :: post →
    key ∉ dict_keys d →
    key ∈ dict_keys (residue_loop select_atoms items saved d)
    ↔ key ∈ ["cation"; "anion"]
      ∨ ((select_atoms (same_resid val) ∉ saved)
         ∧ Forall (fun e => select_atoms (same_resid e.2)
                            ≠ select_atoms (same_resid val)) pre).
Proof.
  induction items as [|[k0 v0] items IH]; intros Hnd saved d pre key val post Heq Hd.
  { by destruct pre. }
  apply NoDup_cons in Hnd as [Hk0 Hnd]. simpl.
  destruct pre as [|[k1 v1] pre]; simpl in Heq; injection Heq as -> -> ->.
  - (* the entry itself *)
    rewrite Forall_nil. destruct (bool_decide_reflect (key ∈ ["cation"; "anion"])) as [Hion|Hion];
      simpl.
    + split; [auto|]. intros _. apply residue_loop_extends, dict_keys_set. by left.
    + destruct (bool_decide_reflect (select_atoms (same_resid val) ∈ saved)) as [Hs|Hs];
        simpl.
      * split; [|tauto]. intros [?|?]%residue_loop_keys_from; done.
      * split; [tauto|]. intros _. apply residue_loop_extends, dict_keys_set. by left.
  - (* an earlier entry comes first *)
    assert (Hne : k1 ≠ key).
    { intros ->. apply Hk0. apply (list_elem_of_fmap_2 fst _ (key, val)).
      apply elem_of_app. right. left. }
    rewrite Forall_cons. simpl.
    destruct (bool_decide_reflect (k1 ∈ ["cation"; "anion"])) as [Hion|Hion]; simpl.
    + rewrite (IH Hnd _ _ pre key val post eq_refl).
      2: { intros [?|?]%dict_keys_set; done. }
      rewrite elem_of_app, list_elem_of_singleton. split.
      * intros [?|[Hs ?]]; [by left|]. right. split; [tauto|]. split; [|done].
        intros Heq. apply Hs. by right.
      * intros [?|(? & ? & ?)]; [by left|]. right. split; [|done].
        intros [?|?]; [done|congruence].
    + destruct (bool_decide_reflect (select_atoms (same_resid v1) ∈ saved)) as [Hs|Hs];
        simpl.
      * rewrite (IH Hnd _ _ pre key val post eq_refl Hd). split.
        -- intros [?|[Hv ?]]; [by left|]. right. split; [done|]. split; [|done].
           intros Heq. apply Hv. by rewrite <- Heq.
        -- intros [?|(? & ? & ?)]; [by left | by right].
      * rewrite (IH Hnd _ _ pre key val post eq_refl).
        2: { intros [?|?]%dict_keys_set; done. }
        rewrite elem_of_app, list_elem_of_singleton. split.
        -- intros [?|[Hv ?]]; [by left|]. right. split; [tauto|]. split; [|done].
           intros Heq. apply Hv. by right.
        -- intros [?|(? & ? & ?)]; [by left|]. right. split; [|done].
           intros [?|?]; [done|congruence].
Qed.
End DedupFacts.

(** X5.  An entry of [select_dict] under a key other than "cation",
    "anion" and "salt" is kept in the result exactly when no earlier entry
    has the same expanded atom group: of several labels that select the
    same residues, only the first stays. *)
Theorem res_dict_keeps_first_label {AtomGroup : Type} `{EqDecision AtomGroup}
    (select_atoms : string → AtomGroup) (pre post : list (string * string))
    (key val : string) :
  NoDup (dict_keys (pre ++ (key, val) :: post)) →
  key ∉ ["cation"; "anion"; "salt"] →
  key ∈ dict_keys (res_dict_from_select_dict select_atoms (pre ++ (key, val) :: post))
  ↔ Forall (fun e => select_atoms (same_resid e.2) ≠ select_atoms (same_resid val)) pre.
Proof.
  intros Hnd Hkey.
  assert (Hc : key ≠ "cation" ∧ key ≠ "anion" ∧ key ≠ "salt").
  { rewrite !elem_of_cons, elem_of_nil in Hkey. tauto. }
  destruct Hc as (Hc & Ha & Hs).
  pose proof (residue_loop_kept select_atoms _ Hnd [] [] pre key val post eq_refl
                ltac:(apply not_elem_of_nil)) as Hkept.
  assert (Hloop : key ∈ dict_keys (residue_loop select_atoms
                                     (pre ++ (key, val) :: post) [] [])
                  ↔ Forall (fun e => select_atoms (same_resid e.2)
                                     ≠ select_atoms (same_resid val)) pre).
  { rewrite Hkept, !elem_of_cons, !elem_of_nil. tauto. }
  rewrite <- Hloop. unfold res_dict_from_select_dict.
  set (r := residue_loop select_atoms (pre ++ (key, val) :: post) [] []).
  assert (Hr : NoDup (dict_keys r)) by (apply residue_loop_NoDup; constructor).
  destruct (dict_get r "cation") as [c|]; [|done].
  destruct (dict_get r "anion") as [a|]; [|done].
  destruct (bool_decide _); [|done].
  rewrite dict_keys_set.
  rewrite (dict_keys_del _ _ (dict_del_NoDup r "anion" Hr)).
  rewrite (dict_keys_del _ _ Hr). tauto.
Qed.

Lemma res_dict_keeps_first_label_witness :
  "DMC" ∈ dict_keys
    (res_dict_from_select_dict
       (fun s => if bool_decide (s = same_resid "type Li") then [0]%nat else [1; 2]%nat)
       ([("cation", "type Li"); ("EC", "type O")] ++ ("DMC", "type C") :: []))
  ↔ Forall (fun e => (if bool_decide (same_resid e.2 = same_resid "type Li")
                      then [0]%nat else [1; 2]%nat)
                     ≠ (if bool_decide (same_resid "type C" = same_resid "type Li")
                        then [0]%nat else [1; 2]%nat))
      [("cation", "type Li"); ("EC", "type O")].
Proof.
  apply (res_dict_keeps_first_label
           (fun s => if bool_decide (s = same_resid "type Li") then [0]%nat else [1; 2]%nat)
           [("cation", "type Li"); ("EC", "type O")] [] "DMC" "type C").
  - apply (bool_decide_unpack _). vm_compute. exact I.
  - rewrite !elem_of_cons, elem_of_nil. intros [?|[?|[?|[]]]]; discriminate.
Defined.

(** X6.  Every entry of the result comes from [select_dict]: it is an
    entry of [select_dict] with its expression wrapped in
    "same resid as (...)", or it is the "salt" entry, which holds the
    wrapped expression of the "cation" entry. *)
Theorem res_dict_entries_origin {AtomGroup : Type} `{EqDecision AtomGroup}
    (select_atoms : string → AtomGroup) (select_dict : list (string * string))
    (key expr : string) :
  (key, expr) ∈ res_dict_from_select_dict select_atoms select_dict →
  (∃ val, (key, val) ∈ select_dict ∧ expr = same_resid val)
  ∨ (key = "salt" ∧ ∃ val, ("cation", val) ∈ select_dict ∧ expr = same_resid val).
Proof.
  unfold res_dict_from_select_dict.
  set (r := residue_loop select_atoms select_dict [] []).
  assert (Hr : ∀ k x, (k, x) ∈ r → ∃ v, (k, v) ∈ select_dict ∧ x = same_resid v).
  { intros k x [Hin|?]%residue_loop_elem; [by apply elem_of_nil in Hin|done]. }
  destruct (dict_get r "cation") as [c|] eqn:Hc; [|by left; apply Hr].
  destruct (dict_get r "anion") as [a|]; [|by left; apply Hr].
  destruct (bool_decide _); [|by left; apply Hr].
  intros [[= -> ->]|Hin]%dict_set_elem.
  - right. split; [done|]. apply Hr. by apply dict_get_elem.
  - left. by apply Hr, (dict_del_elem _ "anion"), (dict_del_elem _ "cation").
Qed.

Lemma res_dict_entries_origin_witness :
  (∃ val, ("salt", val) ∈ [("cation", "type Li"); ("anion", "type Cl")]
          ∧ same_resid "type Li" = same_resid val)
  ∨ ("salt" = "salt"
     ∧ ∃ val, ("cation", val) ∈ [("cation", "type Li"); ("anion", "type Cl")]
              ∧ same_resid "type Li" = same_resid val).
Proof.
  apply (res_dict_entries_origin (fun _ => [0; 1]%nat)
           [("cation", "type Li"); ("anion", "type Cl")] "salt" (same_resid "type Li")).
  vm_compute. left.
Defined.

(** ** The ranges of groups without multiplicity *)

Lemma dict_set_fresh {K V : Type} `{EqDecision K} (d : list (K * V)) k v :
  k ∉ dict_keys d → dict_set d k v = d ++ [(k, v)].
Proof.
  induction d as [|[k' v'] d IH]; simpl; [done|].
  intros [Hne Hd]%not_elem_of_cons. rewrite decide_False by done. by rewrite IH.
Qed.

Lemma plain_loop_ranges (groups : list (string * Z)) :
  NoDup (map fst groups) →
  ∀ idx d, (∀ name, name ∈ map fst groups → name ∉ dict_keys d) →
    lammpsdata_plain_loop groups idx d = d ++ plain_ranges idx groups.
Proof.
  induction groups as [|[name num] groups IH]; intros Hnd idx d Hd; simpl.
  - by rewrite app_nil_r.
  - simpl in Hnd. apply NoDup_cons in Hnd as [Hname Hnd].
    rewrite dict_set_fresh by (apply Hd; left). rewrite IH; [|done|].
    + by rewrite <- app_assoc.
    + intros n Hn. unfold dict_keys. rewrite map_app, elem_of_app. simpl.
      rewrite list_elem_of_singleton. intros [Hin| ->]; [|done].
      revert Hin. apply Hd. by right.
Qed.

Lemma plain_ranges_lookup (groups : list (string * Z)) :
  ∀ idx i name num, groups !! i = Some (name, num) →
    plain_ranges idx groups !! i
    = Some (name, resid_range (idx + sumZ (take i (map snd groups)))
                    (idx + sumZ (take i (map snd groups)) + num)).
Proof.
  induction groups as [|[n0 m0] groups IH]; intros idx i name num Hi; [done|].
  destruct i as [|i]; simpl in *.
  - injection Hi as -> ->. by rewrite Z.add_0_r.
  - rewrite (IH _ i name num Hi). do 3 f_equal; lia.
Qed.

Lemma plain_ranges_length idx (groups : list (string * Z)) :
  length (plain_ranges idx groups) = length groups.
Proof.
  revert idx. induction groups as [|[n0 m0] groups IH]; intros idx; simpl; auto.
Qed.

(** X7.  For an object without [frags] and with pairwise distinct names,
    [res_dict_from_lammpsdata] lists the names in their order, each with a
    range of as many residues as its count: the first range starts at
    residue 1 and each range starts right after the previous one ends. *)
Theorem res_dict_from_lammpsdata_ranges (cd : CombinedData) :
  frags cd = None →
  NoDup (names cd) →
  length (names cd) = length (nums cd) →
  length (res_dict_from_lammpsdata cd) = length (names cd)
  ∧ ∀ i name num,
      names cd !! i = Some name → nums cd !! i = Some num →
      res_dict_from_lammpsdata cd !! i
      = Some (name, "resid " +:+ str (1 + sumZ (take i (nums cd)))
                    +:+ "-" +:+ str (sumZ (take i (nums cd)) + num)).
Proof.
  intros Hfrags Hnd Hlen. unfold res_dict_from_lammpsdata. rewrite Hfrags.
  assert (Hfst : map fst (zip (names cd) (nums cd)) = names cd)
    by by apply fst_zip; lia.
  assert (Hsnd : map snd (zip (names cd) (nums cd)) = nums cd)
    by by apply snd_zip; lia.
  rewrite plain_loop_ranges; [|by rewrite Hfst|intros ? _; apply not_elem_of_nil].
  simpl. split.
  - by rewrite plain_ranges_length, length_zip_with, Hlen, Nat.min_id.
  - intros i name num Hname Hnum.
    rewrite (plain_ranges_lookup _ 1 i name num).
    + rewrite Hsnd. unfold resid_range.
      by replace (1 + sumZ (take i (nums cd)) + num - 1)
        with (sumZ (take i (nums cd)) + num) by lia.
    + apply lookup_zip_with_Some. eauto.
Qed.

Lemma res_dict_from_lammpsdata_ranges_witness :
  res_dict_from_lammpsdata {| names := ["EC"; "DMC"; "Li"]; nums := [3; 10; 2];
                              frags := None |} !! 2%nat
  = Some ("Li", "resid " +:+ str (1 + sumZ (take 2 [3; 10; 2]))
                +:+ "-" +:+ str (sumZ (take 2 [3; 10; 2]) + 2)).
Proof.
  refine (proj2 (res_dict_from_lammpsdata_ranges
                   {| names := ["EC"; "DMC"; "Li"]; nums := [3; 10; 2]; frags := None |}
                   _ _ _) 2%nat "Li" 2 _ _); try reflexivity.
  apply (bool_decide_unpack _). vm_compute. exact I.
Defined.

Lemma frag_loop_ones (names0 : list string) :
  ∀ (nums0 fs : list Z) idx d,
    length fs = length names0 → Forall (fun f => f = 1) fs →
    lammpsdata_frag_loop (zip (zip names0 nums0) fs) idx d
    = lammpsdata_plain_loop (zip names0 nums0) idx d.
Proof.
  induction names0 as [|name names0 IH]; intros nums0 fs idx d Hlen Hones; [done|].
  destruct fs as [|f fs]; [done|]. destruct nums0 as [|num nums0]; [done|].
  apply Forall_cons in Hones as [-> Hones]. simpl.
  apply IH; [by injection Hlen | done].
Qed.

(** X8.  An object whose fragment multiplicities are all 1 gets the same
    res_dict as the same object without [frags]. *)
Theorem res_dict_from_lammpsdata_frags_one (names0 : list string) (nums0 fs : list Z) :
  length fs = length names0 →
  Forall (fun f => f = 1) fs →
  res_dict_from_lammpsdata {| names := names0; nums := nums0; frags := Some fs |}
  = res_dict_from_lammpsdata {| names := names0; nums := nums0; frags := None |}.
Proof. intros Hlen Hones. unfold res_dict_from_lammpsdata. simpl. by apply frag_loop_ones. Qed.

Lemma res_dict_from_lammpsdata_frags_one_witness :
  res_dict_from_lammpsdata {| names := ["EC"; "Li"]; nums := [3; 2]; frags := Some [1; 1] |}
  = res_dict_from_lammpsdata {| names := ["EC"; "Li"]; nums := [3; 2]; frags := None |}.
Proof.
  apply res_dict_from_lammpsdata_frags_one; [reflexivity|].
  repeat (apply Forall_cons; split; [reflexivity|]). constructor.
Defined.

(** ** Failures of the file reader *)

(** X9.  On a file of fewer than two lines [res_dict_from_datafile] never
    returns: the empty file and the file that holds the marker line alone
    raise [IndexError], a single line other than the marker raises the
    format error. *)
Theorem res_dict_from_datafile_short (lines : list string) :
  (length lines < 2)%nat →
  res_dict_from_datafile lines
  = Raise (if bool_decide (lines = [] ∨ lines = [generator_marker])
           then IndexError else format_error).
Proof.
  intros Hlen. destruct lines as [|l0 [|l1 rest]]; [| |simpl in Hlen; lia].
  - rewrite bool_decide_true by auto. done.
  - unfold res_dict_from_datafile. cbn [line_at lookup list_lookup mbind result_bind].
    destruct (decide (l0 = generator_marker)) as [->|Hne].
    + rewrite bool_decide_true by done. by rewrite bool_decide_true by auto.
    + rewrite bool_decide_false by done. rewrite bool_decide_false; [done|].
      intros [[=]|[=]]. done.
Qed.

Lemma res_dict_from_datafile_short_witness :
  res_dict_from_datafile ["LAMMPS data file"]
  = Raise (if bool_decide (["LAMMPS data file"] = []
                           ∨ ["LAMMPS data file"] = [generator_marker])
           then IndexError else format_error).
Proof. apply res_dict_from_datafile_short. simpl. lia. Defined.


Lemma py_int_cases (tok : string) :
  (∃ n, py_int tok = Ok n)
  ∨ (is_int_literal tok = false
     ∧ py_int tok
       = Raise (ValueError ("invalid literal for int() with base 10: '" +:+ tok +:+ "'"))).
Proof. unfold is_int_literal, py_int. destruct (_ ≫= _); eauto. Qed.

Lemma datafile_loop_outcomes (it : list string) :
  ∀ idx d,
    (∃ d', datafile_loop it idx d = Ok d')
    ∨ datafile_loop it idx d = Raise StopIteration
    ∨ ∃ tok, tok ∈ it ∧ is_int_literal tok = false
        ∧ datafile_loop it idx d
          = Raise (ValueError ("invalid literal for int() with base 10: '" +:+ tok +:+ "'")).
Proof.
  induction it as [it IH] using shorter_list_ind.
  intros idx d. destruct it as [|num [|name it2]]; simpl; [eauto..|].
  destruct (isnumeric name) eqn:Hname.
  - destruct (isnumeric_py_int name Hname) as [f ->]. simpl.
    destruct it2 as [|label it3]; [auto|].
    destruct (py_int_cases num) as [[n ->]|[Hlit ->]]; simpl.
    + destruct (IH it3 ltac:(simpl; lia) (idx + n * f)
                  (set_same_mass d idx 0 (sub_names label f)))
        as [?|[?|(tok & Hin & ? & ?)]]; [auto..|].
      right. right. exists tok. split; [|done]. by do 3 right.
    + right. right. exists num. split; [left|done].
  - destruct (py_int_cases num) as [[n ->]|[Hlit ->]]; simpl.
    + destruct (IH it2 ltac:(simpl; lia) (idx + n)
                  (dict_set d name (resid_range idx (idx + n))))
        as [?|[?|(tok & Hin & ? & ?)]]; [auto..|].
      right. right. exists tok. split; [|done]. by do 2 right.
    + right. right. exists num. split; [left|done].
Qed.

(** X10.  On a file whose first two lines conform to the preamble,
    [res_dict_from_datafile] returns a res_dict or fails in one of two
    ways only: [StopIteration], when a group is cut short, or the
    [ValueError] of [int] on a token of the second line that is no integer
    literal. *)
Theorem res_dict_from_datafile_outcomes (l0 l1 : string) (rest : list string) :
  conforming l0 l1 →
  (∃ d, res_dict_from_datafile (l0 :: l1 :: rest) = Ok d)
  ∨ res_dict_from_datafile (l0 :: l1 :: rest) = Raise StopIteration
  ∨ ∃ tok, tok ∈ findall_word l1 ∧ is_int_literal tok = false
      ∧ res_dict_from_datafile (l0 :: l1 :: rest)
        = Raise (ValueError ("invalid literal for int() with base 10: '" +:+ tok +:+ "'")).
Proof.
  intros [-> Hh]. unfold res_dict_from_datafile.
  cbn [line_at lookup list_lookup mbind result_bind].
  rewrite bool_decide_true by done. cbn [line_at lookup list_lookup]. rewrite Hh.
  apply datafile_loop_outcomes.
Qed.

Lemma res_dict_from_datafile_outcomes_witness :
  (∃ d, res_dict_from_datafile [generator_marker; "# ten EC"] = Ok d)
  ∨ res_dict_from_datafile [generator_marker; "# ten EC"] = Raise StopIteration
  ∨ ∃ tok, tok ∈ findall_word "# ten EC" ∧ is_int_literal tok = false
      ∧ res_dict_from_datafile [generator_marker; "# ten EC"]
        = Raise (ValueError ("invalid literal for int() with base 10: '" +:+ tok +:+ "'")).
Proof.
  apply (res_dict_from_datafile_outcomes generator_marker "# ten EC" []).
  split; reflexivity.
Defined.

(** ** The order of the keys of the type table *)

Lemma dict_keys_set_list {K V : Type} `{EqDecision K} (d : list (K * V)) k v :
  dict_keys (dict_set d k v)
  = if decide (k ∈ dict_keys d) then dict_keys d else dict_keys d ++ [k].
Proof.
  induction d as [|[k' v'] d IH].
  - by rewrite decide_False by apply not_elem_of_nil.
  - cbn [dict_set]. destruct (decide (k' = k)) as [->|Hne].
    + rewrite decide_True; [done|]. left.
    + change (dict_keys ((k', v') :: dict_set d k v))
        with (k' :: dict_keys (dict_set d k v)).
      change (dict_keys ((k', v') :: d)) with (k' :: dict_keys d).
      rewrite IH. destruct (decide (k ∈ dict_keys d)) as [Hin|Hnotin].
      * by rewrite decide_True by by right.
      * rewrite decide_False; [done|]. intros [?|?]%elem_of_cons; done.
Qed.

Lemma record_matches_keys_list m row items (atoms : list (Z * string)) :
  dict_keys (record_matches m row items atoms)
  = if decide (row ∈ dict_keys atoms
               ∨ filter (fun item => isclose m item.2 (1 # 100) = true) items = [])
    then dict_keys atoms else dict_keys atoms ++ [row].
Proof.
  unfold record_matches. revert atoms.
  induction items as [|item items IH]; intros atoms; simpl.
  - by rewrite decide_True by auto.
  - rewrite IH, filter_cons. destruct (isclose m item.2 (1 # 100)) eqn:E.
    + rewrite (decide_True (P := true = true)) by done.
      rewrite (decide_True (P := row ∈ dict_keys (dict_set atoms row item.1) ∨ _)).
      2: { left. apply dict_keys_set. by left. }
      rewrite dict_keys_set_list.
      destruct (decide (row ∈ dict_keys atoms)) as [Hin|Hnotin].
      * by rewrite decide_True by auto.
      * rewrite decide_False; [done|]. by intros [?|?].
    + by rewrite (decide_False (P := false = true)) by done.
Qed.

Lemma lmp_rows_keys_list (table : list (string * Q)) (df rs : list (Z * Q)) :
  NoDup (map fst df) → NoDup (map fst rs) → (∀ r, r ∈ rs → r ∈ df) →
  ∀ atoms atoms',
    (∀ r, r ∈ rs → r.1 ∉ dict_keys atoms) →
    lmp_rows table df (map fst rs) atoms = Ok atoms' →
    dict_keys atoms'
    = dict_keys atoms
      ++ map fst (filter (fun r => close_items table (1 # 100) r.2 ≠ []) rs).
Proof.
  intros Hdf. induction rs as [|[row m] rs IH]; intros Hnd Hsub atoms atoms' Hfresh; simpl.
  - intros [= <-]. by rewrite app_nil_r.
  - simpl in Hnd. apply NoDup_cons in Hnd as [Hrow Hnd].
    rewrite (lmp_items_spec df row m) by (apply df_mass_unique; [done|apply Hsub; left]).
    simpl. intros Hrows.
    assert (Hk : dict_keys (record_matches m row table atoms)
                 = dict_keys atoms
                   ++ (if decide (close_items table (1 # 100) m ≠ []) then [row] else [])).
    { rewrite record_matches_keys_list. fold (close_items table (1 # 100) m).
      destruct (decide (close_items table (1 # 100) m ≠ [])) as [Hne|He].
      - rewrite decide_False; [done|]. intros [Hin|?]; [|done].
        by apply (Hfresh (row, m) ltac:(left)).
      - rewrite decide_True; [by rewrite app_nil_r|]. right.
        by destruct (close_items table (1 # 100) m); [|exfalso; apply He]. }
    rewrite (IH Hnd ltac:(intros r Hr; apply Hsub; by right)
               (record_matches m row table atoms) atoms'); [| |done].
    + rewrite Hk, filter_cons. simpl.
      destruct (decide (close_items table (1 # 100) m ≠ [])); simpl;
        by rewrite <- app_assoc.
    + intros r Hr. rewrite Hk, elem_of_app. intros [Hin|Hin].
      * by apply (Hfresh r ltac:(by right)).
      * destruct (decide _); [|by apply elem_of_nil in Hin].
        apply list_elem_of_singleton in Hin. apply Hrow. rewrite <- Hin.
        by apply (list_elem_of_fmap_2 fst).
Qed.

(** X11.  On a masses table with pairwise distinct index labels, the keys
    of the mapping [lmp_mass_to_name] returns are the labels of the matched
    rows in the order of the table, each once. *)
Theorem lmp_mass_to_name_key_order (table : list (string * Q)) (df : list (Z * Q)) :
  NoDup (map fst df) →
  ∃ atoms, lmp_mass_to_name table df = Ok atoms
    ∧ dict_keys atoms
      = map fst (filter (fun r => close_items table (1 # 100) r.2 ≠ []) df).
Proof.
  intros Hnd. unfold lmp_mass_to_name.
  destruct (lmp_rows_total table df (map fst df) [] Hnd) as [atoms Hatoms]; [done|].
  exists atoms. split; [done|].
  apply (lmp_rows_keys_list table df df Hnd Hnd ltac:(done) [] atoms); [|done].
  intros r _. apply not_elem_of_nil.
Qed.

Lemma lmp_mass_to_name_key_order_witness :
  ∃ atoms, lmp_mass_to_name MM_excerpt [(3, 15.999%Q); (1, 2.014%Q); (2, 12.011%Q)] = Ok atoms
    ∧ dict_keys atoms
      = map fst (filter (fun r => close_items MM_excerpt (1 # 100) r.2 ≠ [])
                   [(3, 15.999%Q); (1, 2.014%Q); (2, 12.011%Q)]).
Proof.
  apply lmp_mass_to_name_key_order.
  apply (bool_decide_unpack _). vm_compute. exact I.
Defined.

(** ** Detection of invalid masses *)

Lemma mass_to_name_unmatched_fails_witness :
  mass_to_name MM_excerpt [12.011%Q; 2.014%Q]
  = Raise (AssertionError "Invalid mass found.").
Proof.
  apply mass_to_name_unmatched_fails.
  - repeat (apply Forall_cons; split; [vm_compute; lia|]). constructor.
  - apply Exists_cons. right. apply Exists_cons. left. vm_compute. reflexivity.
Defined.

Lemma mass_to_name_ambiguous_fails_witness :
  mass_to_name MM_excerpt [12.011%Q; 208.98%Q]
  = Raise (AssertionError "Invalid mass found.").
Proof.
  apply mass_to_name_ambiguous_fails.
  - repeat (apply Forall_cons; split; [vm_compute; lia|]). constructor.
  - apply Exists_cons. right. apply Exists_cons. left. vm_compute. lia.
Defined.

(** ** Entries of one extraction *)

(** X14.  On a fragment of several atoms whose extremal-charge atom has
    the rarest type, [extract_atom_from_ion] records one entry only: the
    name of the ion with that type. *)
Theorem extract_atom_from_ion_same_type (positive : bool) (ion : list Atom)
    (d : list (string * string)) (number : Z) (i : nat) (center : Atom) (t : string) :
  is_extremal positive ion i center →
  is_rarest (map atom_type ion) t →
  atom_type center = t →
  extract_atom_from_ion positive ion d number
  = Ok (dict_set d (ion_name (if positive then "cation" else "anion") number)
          ("type " +:+ t)).
Proof.
  intros Hext Hrare Heq.
  assert (Hion : ion ≠ []) by (destruct Hext as [Hi _]; by destruct ion).
  destruct (extract_atom_from_ion_spec positive ion d number Hion)
    as (i' & center' & t' & Hext' & Hrare' & ->).
  destruct (is_extremal_unique _ _ _ _ _ _ Hext Hext') as [<- <-].
  rewrite <- (is_rarest_unique _ _ _ Hrare Hrare').
  by rewrite bool_decide_true.
Qed.

Lemma extract_atom_from_ion_same_type_witness :
  extract_atom_from_ion false
    [ {| atom_name := "O1"; atom_type := "O"; charge := - (0.9) |};
      {| atom_name := "H1"; atom_type := "H"; charge := - (0.05) |};
      {| atom_name := "H2"; atom_type := "H"; charge := - (0.05) |} ] [] 2
  = Ok (dict_set [] (ion_name "anion" 2) ("type " +:+ "O")).
Proof.
  apply (extract_atom_from_ion_same_type false _ [] 2 0%nat
           {| atom_name := "O1"; atom_type := "O"; charge := - (0.9) |} "O").
  - split; [reflexivity|]. split.
    + intros a Ha. rewrite !elem_of_cons, elem_of_nil in Ha.
      destruct Ha as [->|[->|[->|[]]]]; vm_compute; discriminate.
    + intros j a Hj. lia.
  - split; [left|]. intros t' Ht'. cbn [map atom_type] in Ht'.
    rewrite !elem_of_cons, elem_of_nil in Ht'.
    destruct Ht' as [->|[->|[->|[]]]]; vm_compute; split; (lia || done).
  - reflexivity.
Defined.

(** X15.  On a group with atoms [extract_atom_from_molecule] records one
    entry, whose value is "type T" for the type T of the first atom of
    least charge and whose key is the resname followed by "_" and the
    number when the number is positive, the bare resname otherwise; on a
    group without atoms it raises [ValueError]. *)
Theorem extract_atom_from_molecule_entry (resname : string) (molecule : list Atom)
    (d : list (string * string)) (number : Z) :
  (∀ i center,
     is_extremal false molecule i center →
     extract_atom_from_molecule resname molecule d number
     = Ok (dict_set d
             (if (0 <? number)%Z then resname +:+ "_" +:+ str number else resname)
             ("type " +:+ atom_type center)))
  ∧ (molecule = [] →
     extract_atom_from_molecule resname molecule d number
     = Raise (ValueError "attempt to get argmin of an empty sequence")).
Proof.
  split.
  - intros i center Hext.
    assert (Hne : molecule ≠ []) by (destruct Hext as [Hi _]; by destruct molecule).
    destruct (extract_atom_from_molecule_spec resname molecule d number Hne)
      as (i' & center' & Hext' & ->).
    by destruct (is_extremal_unique _ _ _ _ _ _ Hext Hext') as [_ <-].
  - by intros ->.
Qed.

Lemma extract_atom_from_molecule_entry_witness :
  extract_atom_from_molecule "SOL" [O_atom; H1_atom; H2_atom] [] 2
  = Ok (dict_set [] ("SOL" +:+ "_" +:+ str 2) ("type " +:+ "O")).
Proof.
  refine (proj1 (extract_atom_from_molecule_entry "SOL" _ [] 2) 0%nat O_atom _).
  split; [reflexivity|]. split.
  - intros a Ha. rewrite !elem_of_cons, elem_of_nil in Ha.
    destruct Ha as [->|[->|[->|[]]]]; vm_compute; discriminate.
  - intros j a Hj. lia.
Defined.

(** ** The expressions of the select_dict *)

Lemma typed_by_set S (d : list (string * string)) k a :
  typed_by S d → a ∈ S → typed_by S (dict_set d k ("type " +:+ atom_type a)).
Proof.
  intros Hd Ha k0 x [[= -> ->]|Hin]%dict_set_elem; [eauto | by apply (Hd k0)].
Qed.

Lemma extract_atom_from_ion_typed S positive ion d number :
  ion ≠ [] → (∀ a, a ∈ ion → a ∈ S) → typed_by S d →
  ∃ d', extract_atom_from_ion positive ion d number = Ok d' ∧ typed_by S d'.
Proof.
  intros Hne Hsub Hd.
  destruct (extract_atom_from_ion_spec positive ion d number Hne)
    as (i & center & t & (Hi & _) & [Ht _] & ->).
  apply list_elem_of_fmap in Ht as (a & -> & Ha).
  apply list_elem_of_lookup_2 in Hi.
  eexists. split; [done|]. simpl. destruct (bool_decide _).
  - apply typed_by_set; auto.
  - do 2 (apply typed_by_set; auto).
Qed.

Lemma extract_atom_from_molecule_typed S resname molecule d number :
  molecule ≠ [] → (∀ a, a ∈ molecule → a ∈ S) → typed_by S d →
  ∃ d', extract_atom_from_molecule resname molecule d number = Ok d' ∧ typed_by S d'.
Proof.
  intros Hne Hsub Hd.
  destruct (extract_atom_from_molecule_spec resname molecule d number Hne)
    as (i & center & (Hi & _) & ->).
  apply list_elem_of_lookup_2 in Hi.
  eexists. split; [done|]. apply typed_by_set; auto.
Qed.

Lemma pair_loop_typed S resname frags :
  Forall (fun f => f ≠ [] ∧ ∀ a, a ∈ f → a ∈ S) frags →
  ∀ i d, typed_by S d → ∃ d', pair_loop resname frags i d = Ok d' ∧ typed_by S d'.
Proof.
  induction 1 as [|f frags [Hf Hsub] _ IH]; intros i d Hd; simpl; [eauto|].
  assert (Hstep : ∃ d1,
    (if pos_charge (np_sum (map charge f)) then extract_atom_from_ion true f d 0
     else if neg_charge (np_sum (map charge f)) then extract_atom_from_ion false f d 0
     else extract_atom_from_molecule resname f d (i + 1)) = Ok d1 ∧ typed_by S d1).
  { destruct (pos_charge _); [|destruct (neg_charge _)];
      [by apply extract_atom_from_ion_typed ..| by apply extract_atom_from_molecule_typed]. }
  destruct Hstep as (d1 & -> & Hd1). cbn [mbind result_bind]. by apply IH.
Qed.

Lemma cluster_loop_typed S resname frags :
  Forall (fun f => f ≠ [] ∧ ∀ a, a ∈ f → a ∈ S) frags →
  ∀ cn an mn d, typed_by S d →
    ∃ d', cluster_loop resname frags cn an mn d = Ok d' ∧ typed_by S d'.
Proof.
  induction 1 as [|f frags [Hf Hsub] _ IH]; intros cn an mn d Hd; simpl; [eauto|].
  destruct (pos_charge _); [|destruct (neg_charge _)].
  - destruct (extract_atom_from_ion_typed S true f d cn Hf Hsub Hd) as (d1 & -> & Hd1).
    cbn [mbind result_bind]. by apply IH.
  - destruct (extract_atom_from_ion_typed S false f d an Hf Hsub Hd) as (d1 & -> & Hd1).
    cbn [mbind result_bind]. by apply IH.
  - destruct (extract_atom_from_molecule_typed S resname f d mn Hf Hsub Hd)
      as (d1 & -> & Hd1).
    cbn [mbind result_bind]. by apply IH.
Qed.

Lemma classify_residue_typed S rn r d :
  atoms r ≠ [] → (∀ a, a ∈ atoms r → a ∈ S) →
  Forall (fun f => f ≠ [] ∧ ∀ a, a ∈ f → a ∈ S) (fragments r) →
  typed_by S d →
  ∃ d', classify_residue rn r d = Ok d' ∧ typed_by S d'.
Proof.
  intros Ha Hsub Hf Hd. unfold classify_residue.
  destruct (np_isclose _ _ _); [destruct (bool_decide _); [|destruct (bool_decide _)]|
                                destruct (Qgt_bool _ _)].
  - by apply pair_loop_typed.
  - by apply cluster_loop_typed.
  - by apply extract_atom_from_molecule_typed.
  - by apply extract_atom_from_ion_typed.
  - by apply extract_atom_from_ion_typed.
Qed.

Lemma elem_of_concat {A : Type} (x : A) (ls : list (list A)) :
  x ∈ concat ls ↔ ∃ l, l ∈ ls ∧ x ∈ l.
Proof.
  rewrite list_elem_of_In, in_concat. split; intros (l & Hl & Hx); exists l;
    by rewrite ?list_elem_of_In in *.
Qed.

Lemma universe_atoms_elem u r a :
  r ∈ u → (a ∈ atoms r ∨ ∃ f, f ∈ fragments r ∧ a ∈ f) → a ∈ universe_atoms u.
Proof.
  intros Hr Ha. unfold universe_atoms. apply elem_of_concat.
  exists (atoms r ++ concat (fragments r)). split.
  - by apply (list_elem_of_fmap_2 (fun r => atoms r ++ concat (fragments r))).
  - apply elem_of_app. destruct Ha as [?|(f & Hf & Ha)]; [by left|right].
    apply elem_of_concat. eauto.
Qed.

Lemma resname_loop_typed u resnames :
  universe_wf u → Forall (fun rn => rn ∈ map resname u) resnames →
  ∀ d, typed_by (universe_atoms u) d →
    ∃ d', resname_loop u resnames d = Ok d' ∧ typed_by (universe_atoms u) d'.
Proof.
  intros Hwf. induction 1 as [|rn resnames Hrn _ IH]; intros d Hd; simpl; [eauto|].
  destruct (bool_decide (rn = "")); [by apply IH|].
  destruct (first_residue_total u rn Hwf Hrn) as [r Hr]. rewrite Hr.
  cbn [mbind result_bind]. apply first_residue_elem in Hr as [Hin _].
  destruct (universe_wf_elem u r Hwf Hin) as [Ha Hf].
  destruct (classify_residue_typed (universe_atoms u) rn r d Ha) as (d1 & -> & Hd1);
    [| |done|].
  - intros a Hina. apply (universe_atoms_elem u r); auto.
  - rewrite Forall_forall in Hf. apply Forall_forall. intros f Hinf. split; [auto|].
    intros a Hina. apply (universe_atoms_elem u r); eauto.
  - cbn [mbind result_bind]. by apply IH.
Qed.

(** X16.  On a universe in which every residue has atoms and no fragment
    is empty, [select_dict_from_resname] returns, and every expression of
    the select_dict is "type T" for the type T of an atom of the
    universe. *)
Theorem select_dict_from_resname_typed (u : list Residue) :
  universe_wf u →
  ∃ d, select_dict_from_resname u = Ok d
    ∧ ∀ key expr, (key, expr) ∈ d →
        ∃ a, a ∈ universe_atoms u ∧ expr = "type " +:+ atom_type a.
Proof.
  intros Hwf. unfold select_dict_from_resname.
  apply (resname_loop_typed u _ Hwf).
  - apply Forall_forall. intros rn. by rewrite np_unique_elem.
  - intros k x Hin. by apply elem_of_nil in Hin.
Qed.

Lemma select_dict_from_resname_typed_witness :
  ∃ d, select_dict_from_resname [water_residue "SOL"; pair_residue "LiCl"] = Ok d
    ∧ ∀ key expr, (key, expr) ∈ d →
        ∃ a, a ∈ universe_atoms [water_residue "SOL"; pair_residue "LiCl"]
             ∧ expr = "type " +:+ atom_type a.
Proof.
  apply select_dict_from_resname_typed.
  repeat (apply Forall_cons; split; [split; [discriminate|]|]);
    repeat (apply Forall_cons; split; [discriminate|]); constructor.
Defined.

(** X17.  A universe whose residues all carry the empty name gives the
    empty select_dict: the classifier skips the empty name. *)
Theorem select_dict_from_resname_unnamed (u : list Residue) :
  Forall (fun r => resname r = "") u →
  select_dict_from_resname u = Ok [].
Proof.
  intros Hall. unfold select_dict_from_resname.
  assert (Hnames : Forall (fun rn => rn = "") (np_unique (map resname u))).
  { apply Forall_forall. intros rn Hrn.
    apply (proj1 (np_unique_elem (map resname u) rn)) in Hrn.
    apply list_elem_of_fmap in Hrn as (r & -> & Hr).
    rewrite Forall_forall in Hall. auto. }
  induction Hnames as [|rn rns -> _ IH]; [done|]. simpl. apply IH.
Qed.

Lemma select_dict_from_resname_unnamed_witness :
  select_dict_from_resname [pair_residue ""; water_residue ""] = Ok [].
Proof.
  apply select_dict_from_resname_unnamed.
  repeat (apply Forall_cons; split; [reflexivity|]). constructor.
Defined.

(** X18.  When the first residue carrying a non-empty name has a total
    charge farther than 1e-5 from zero, the classifier treats the whole
    residue as one ion, whatever its fragments: a positive charge gives the
    select_dict the key "cation", a negative charge the key "anion". *)
Theorem select_dict_from_charged_residue (pre post : list Residue) (r : Residue) :
  universe_wf (pre ++ r :: post) →
  Forall (fun r' => resname r' ≠ resname r) pre →
  resname r ≠ "" →
  (1 # 100000 < Qabs (residue_charge r))%Q →
  (∀ d, classify_residue (resname r) r d
        = extract_atom_from_ion (Qgt_bool (residue_charge r) 0) (atoms r) d 0)
  ∧ ∃ d, select_dict_from_resname (pre ++ r :: post) = Ok d
      ∧ (if Qgt_bool (residue_charge r) 0 then "cation" else "anion") ∈ dict_keys d.
Proof.
  intros Hwf Hpre Hname Hcharge.
  assert (Hfar : np_isclose (residue_charge r) 0 (1 # 100000) = false).
  { destruct (np_isclose _ _ _) eqn:E; [|done]. apply np_isclose_zero in E. lra. }
  assert (Hstep : ∀ d, classify_residue (resname r) r d
            = extract_atom_from_ion (Qgt_bool (residue_charge r) 0) (atoms r) d 0).
  { intros d. unfold classify_residue. rewrite Hfar. by destruct (Qgt_bool _ _). }
  split; [done|].
  set (u := pre ++ r :: post) in *.
  assert (Hru : r ∈ u) by (apply elem_of_app; right; left).
  destruct (universe_wf_elem u r Hwf Hru) as [Ha Hf].
  pose proof (first_residue_first pre r post Ha Hpre) as Hfirst. fold u in Hfirst.
  apply (resname_loop_key u _ (resname r) r _ Hwf); [| |done..|].
  - apply Forall_forall. intros rn. by rewrite np_unique_elem.
  - apply np_unique_elem. by apply (list_elem_of_fmap_2 resname).
  - intros d d'. rewrite Hstep. intros Hd'.
    destruct (extract_atom_from_ion_keys (Qgt_bool (residue_charge r) 0) (atoms r) d 0 Ha)
      as (d2 & Hd2 & _ & Hkey).
    rewrite Hd2 in Hd'. injection Hd' as <-. by destruct (Qgt_bool _ _).
Qed.

Lemma select_dict_from_charged_residue_witness :
  ∃ d, select_dict_from_resname [water_residue "SOL"; cation_residue "Li"] = Ok d
    ∧ "cation" ∈ dict_keys d.
Proof.
  refine (proj2 (select_dict_from_charged_residue [water_residue "SOL"] []
                   (cation_residue "Li") _ _ _ _)).
  - repeat (apply Forall_cons; split; [split; [discriminate|]|]);
      repeat (apply Forall_cons; split; [discriminate|]); constructor.
  - repeat (apply Forall_cons; split; [discriminate|]). constructor.
  - discriminate.
  - vm_compute. reflexivity.
Defined.

(** ** Numbering of the fragments *)

Lemma count_before_0 role frags : count_before role frags 0 = 0.
Proof. done. Qed.

Lemma count_before_S role f frags i :
  count_before role (f :: frags) (S i)
  = (if role f then 1 else 0) + count_before role frags i.
Proof.
  unfold count_before. simpl. destruct (role f); simpl; lia.
Qed.

Lemma counted_key_S rn cn an mn f0 frags i f :
  counted_key rn cn an mn (f0 :: frags) (S i) f
  = counted_key rn (cn + if is_cation f0 then 1 else 0)
      (an + if is_anion f0 then 1 else 0)
      (mn + if is_molecule f0 then 1 else 0) frags i f.
Proof.
  unfold counted_key. rewrite !count_before_S.
  by rewrite !Z.add_assoc.
Qed.

(** The cluster loop records every fragment under the key its role and
    its serial number among the fragments of that role give. *)
Lemma cluster_loop_numbered rn frags :
  Forall (fun f => f ≠ []) frags →
  ∀ cn an mn d,
    ∃ d', cluster_loop rn frags cn an mn d = Ok d'
      ∧ extends d d'
      ∧ ∀ i f, frags !! i = Some f → counted_key rn cn an mn frags i f ∈ dict_keys d'.
Proof.
  induction 1 as [|f0 frags Hf0 _ IH]; intros cn an mn d; simpl.
  { exists d. split; [done|]. split; [apply extends_refl | done]. }
  destruct (pos_charge (np_sum (map charge f0))) eqn:Hp;
    [|destruct (neg_charge (np_sum (map charge f0))) eqn:Hn].
  - destruct (extract_atom_from_ion_keys true f0 d cn Hf0) as (d1 & -> & Hd1 & Hkey).
    cbn [mbind result_bind].
    destruct (IH (cn + 1) an mn d1) as (d' & -> & Hd' & Hkeys).
    exists d'. split; [done|]. split; [eauto using extends_trans|].
    intros [|i] f Hi.
    + injection Hi as <-. apply Hd'. unfold counted_key, is_cation.
      by rewrite Hp, count_before_0, Z.add_0_r.
    + rewrite counted_key_S. unfold is_cation at 1, is_anion at 1, is_molecule at 1.
      rewrite Hp. simpl. rewrite !Z.add_0_r. by apply Hkeys.
  - destruct (extract_atom_from_ion_keys false f0 d an Hf0) as (d1 & -> & Hd1 & Hkey).
    cbn [mbind result_bind].
    destruct (IH cn (an + 1) mn d1) as (d' & -> & Hd' & Hkeys).
    exists d'. split; [done|]. split; [eauto using extends_trans|].
    intros [|i] f Hi.
    + injection Hi as <-. apply Hd'. unfold counted_key, is_cation, is_anion.
      by rewrite Hp, Hn, count_before_0, Z.add_0_r.
    + rewrite counted_key_S. unfold is_cation at 1, is_anion at 1, is_molecule at 1.
      rewrite Hp, Hn. simpl. rewrite !Z.add_0_r. by apply Hkeys.
  - destruct (extract_atom_from_molecule_spec rn f0 d mn Hf0) as (j & center & _ & ->).
    cbn [mbind result_bind].
    destruct (IH cn an (mn + 1)
                (dict_set d (if (0 <? mn)%Z then rn +:+ "_" +:+ str mn else rn)
                   ("type " +:+ atom_type center)))
      as (d' & -> & Hd' & Hkeys).
    exists d'. split; [done|]. split; [eauto using extends_trans, extends_set|].
    intros [|i] f Hi.
    + injection Hi as <-. apply Hd'. unfold counted_key, is_cation, is_anion.
      rewrite Hp, Hn, !count_before_0, !Z.add_0_r. cbn [negb andb]. apply set_key.
    + rewrite counted_key_S. unfold is_cation at 1, is_anion at 1, is_molecule at 1.
      rewrite Hp, Hn. simpl. rewrite !Z.add_0_r. by apply Hkeys.
Qed.

Lemma count_before_nonneg role frags i : (0 ≤ count_before role frags i)%Z.
Proof. unfold count_before. lia. Qed.

Lemma counted_key_cluster rn frags i f :
  counted_key rn 1 1 1 frags i f = cluster_key rn frags i f.
Proof.
  unfold counted_key, cluster_key, ion_name.
  pose proof (count_before_nonneg is_cation frags i).
  pose proof (count_before_nonneg is_anion frags i).
  pose proof (count_before_nonneg is_molecule frags i).
  rewrite !bool_decide_false by lia.
  by replace (0 <? 1 + count_before is_molecule frags i)%Z with true
    by (symmetry; apply Z.ltb_lt; lia).
Qed.

(** X19.  On a residue of total charge within 1e-5 of zero with three
    fragments or more, none empty, the classifier records every fragment
    under a numbered key: the k-th fragment of positive charge under
    "cation_k", the k-th of negative charge under "anion_k", the k-th
    neutral one under the resname followed by "_k". *)
Theorem classify_residue_cluster (rn : string) (r : Residue) (d : list (string * string)) :
  (Qabs (residue_charge r) <= 1 # 100000)%Q →
  (3 ≤ length (fragments r))%nat →
  Forall (fun f => f ≠ []) (fragments r) →
  ∃ d', classify_residue rn r d = Ok d'
    ∧ ∀ i f, fragments r !! i = Some f →
        cluster_key rn (fragments r) i f ∈ dict_keys d'.
Proof.
  intros Hzero%np_isclose_zero Hlen Hf. unfold classify_residue. rewrite Hzero.
  rewrite bool_decide_false by lia. rewrite bool_decide_true by lia.
  destruct (cluster_loop_numbered rn (fragments r) Hf 1 1 1 d) as (d' & -> & _ & Hkeys).
  exists d'. split; [done|]. intros i f Hi. rewrite <- counted_key_cluster. auto.
Qed.

Lemma classify_residue_cluster_witness :
  ∃ d', classify_residue "LiTFSI"
          {| resname := "LiTFSI"; atoms := [Li_atom; Li_atom; Cl_atom; Cl_atom];
             fragments := [[Li_atom]; [Cl_atom]; [Li_atom]; [Cl_atom]] |} [] = Ok d'
    ∧ ∀ i f,
        [[Li_atom]; [Cl_atom]; [Li_atom]; [Cl_atom]] !! i = Some f →
        cluster_key "LiTFSI" [[Li_atom]; [Cl_atom]; [Li_atom]; [Cl_atom]] i f
        ∈ dict_keys d'.
Proof.
  apply (classify_residue_cluster "LiTFSI"
           {| resname := "LiTFSI"; atoms := [Li_atom; Li_atom; Cl_atom; Cl_atom];
              fragments := [[Li_atom]; [Cl_atom]; [Li_atom]; [Cl_atom]] |} []).
  - vm_compute. discriminate.
  - simpl. lia.
  - repeat (apply Forall_cons; split; [discriminate|]). constructor.
Defined.

Lemma pair_loop_keyed rn frags :
  Forall (fun f => f ≠ []) frags →
  ∀ i0 d, (0 ≤ i0)%Z →
    ∃ d', pair_loop rn frags i0 d = Ok d'
      ∧ extends d d'
      ∧ ∀ i f, frags !! i = Some f → pair_key rn (i0 + Z.of_nat i) f ∈ dict_keys d'.
Proof.
  induction 1 as [|f0 frags Hf0 _ IH]; intros i0 d Hi0; simpl.
  { exists d. split; [done|]. split; [apply extends_refl | done]. }
  assert (Hstep : ∃ d1,
    (if pos_charge (np_sum (map charge f0)) then extract_atom_from_ion true f0 d 0
     else if neg_charge (np_sum (map charge f0)) then extract_atom_from_ion false f0 d 0
     else extract_atom_from_molecule rn f0 d (i0 + 1)) = Ok d1
    ∧ extends d d1 ∧ pair_key rn i0 f0 ∈ dict_keys d1).
  { unfold pair_key, is_cation, is_anion.
    destruct (pos_charge _); [|destruct (neg_charge _)]; simpl.
    - by apply (extract_atom_from_ion_keys true f0 d 0).
    - by apply (extract_atom_from_ion_keys false f0 d 0).
    - destruct (extract_atom_from_molecule_spec rn f0 d (i0 + 1) Hf0)
        as (j & center & _ & ->).
      replace (0 <? i0 + 1)%Z with true by (symmetry; apply Z.ltb_lt; lia).
      eexists. split; [done|]. split; [apply extends_set | apply set_key]. }
  destruct Hstep as (d1 & -> & Hd1 & Hkey). cbn [mbind result_bind].
  destruct (IH (i0 + 1) d1 ltac:(lia)) as (d' & -> & Hd' & Hkeys).
  exists d'. split; [done|]. split; [eauto using extends_trans|].
  intros [|i] f Hi.
  - injection Hi as <-. apply Hd'. by rewrite Z.add_0_r.
  - replace (i0 + Z.of_nat (S i)) with (i0 + 1 + Z.of_nat i) by lia. by apply Hkeys.
Qed.

(** X20.  On a residue of total charge within 1e-5 of zero with exactly
    two fragments, none empty, the classifier records each fragment: one
    of charge above 0.001 under "cation", one of charge below -0.001 under
    "anion", and a fragment in between under the resname followed by "_1"
    (the first fragment) or "_2" (the second). *)
Theorem classify_residue_pair (rn : string) (r : Residue) (d : list (string * string))
    (f1 f2 : list Atom) :
  (Qabs (residue_charge r) <= 1 # 100000)%Q →
  fragments r = [f1; f2] →
  f1 ≠ [] → f2 ≠ [] →
  ∃ d', classify_residue rn r d = Ok d'
    ∧ pair_key rn 0 f1 ∈ dict_keys d'
    ∧ pair_key rn 1 f2 ∈ dict_keys d'.
Proof.
  intros Hzero%np_isclose_zero Hfr Hf1 Hf2. unfold classify_residue.
  rewrite Hzero, Hfr. rewrite bool_decide_true by done.
  destruct (pair_loop_keyed rn [f1; f2]
              ltac:(repeat (apply Forall_cons; split; [done|]); constructor) 0 d
              ltac:(lia)) as (d' & -> & _ & Hkeys).
  exists d'. split; [done|]. split.
  - apply (Hkeys 0%nat f1 eq_refl).
  - apply (Hkeys 1%nat f2 eq_refl).
Qed.

Lemma classify_residue_pair_witness :
  ∃ d', classify_residue "W2"
          {| resname := "W2";
             atoms := [O_atom; H1_atom; H2_atom; O_atom; H1_atom; H2_atom];
             fragments := [[O_atom; H1_atom; H2_atom]; [O_atom; H1_atom; H2_atom]] |} []
        = Ok d'
    ∧ pair_key "W2" 0 [O_atom; H1_atom; H2_atom] ∈ dict_keys d'
    ∧ pair_key "W2" 1 [O_atom; H1_atom; H2_atom] ∈ dict_keys d'.
Proof.
  apply (classify_residue_pair "W2"
           {| resname := "W2";
              atoms := [O_atom; H1_atom; H2_atom; O_atom; H1_atom; H2_atom];
              fragments := [[O_atom; H1_atom; H2_atom]; [O_atom; H1_atom; H2_atom]] |} []).
  - vm_compute. discriminate.
  - reflexivity.
  - discriminate.
  - discriminate.
Defined.

(** ** Ranges read from a file *)

(** X21.  For a file that conforms to the preamble and whose second line
    writes groups without multiplicity, with natural counts and pairwise
    distinct labels that are not numerals, [res_dict_from_datafile] lists
    the labels in their order, each with a range of as many residues as
    its count: the first range starts at residue 1 and each range starts
    right after the previous one ends. *)
Theorem res_dict_from_datafile_ranges (gs : list Group) (l1 : string)
    (rest : list string) :
  Forall group_wf gs →
  Forall (fun g => g_frag g = None) gs →
  NoDup (map g_label gs) →
  startswith_hash l1 = true →
  findall_word l1 = header_tokens gs →
  ∃ d, res_dict_from_datafile (generator_marker :: l1 :: rest) = Ok d
    ∧ length d = length gs
    ∧ ∀ i g, gs !! i = Some g →
        d !! i
        = Some (g_label g,
                "resid " +:+ str (1 + sumZ (take i (map g_count gs)))
                +:+ "-" +:+ str (sumZ (take i (map g_count gs)) + g_count g)).
Proof.
  intros Hwf Hplain Hnd Hh Htok.
  assert (Hfst : map fst (zip (map g_label gs) (map g_count gs)) = map g_label gs)
    by (apply fst_zip; rewrite !length_map; lia).
  assert (Hsnd : map snd (zip (map g_label gs) (map g_count gs)) = map g_count gs)
    by (apply snd_zip; rewrite !length_map; lia).
  eexists. split.
  - unfold res_dict_from_datafile. cbn [line_at lookup list_lookup mbind result_bind].
    rewrite bool_decide_true by done. cbn [line_at lookup list_lookup].
    rewrite Hh, Htok, (datafile_loop_frag_loop gs Hwf).
    rewrite (frag_loop_plain_loop gs Hplain).
    rewrite plain_loop_ranges; [done|by rewrite Hfst|intros ? _; apply not_elem_of_nil].
  - simpl. split.
    + by rewrite plain_ranges_length, length_zip_with, !length_map, Nat.min_id.
    + intros i g Hi.
      rewrite (plain_ranges_lookup _ 1 i (g_label g) (g_count g)).
      * rewrite Hsnd. unfold resid_range.
        by replace (1 + sumZ (take i (map g_count gs)) + g_count g - 1)
          with (sumZ (take i (map g_count gs)) + g_count g) by lia.
      * apply lookup_zip_with_Some. exists (g_label g), (g_count g).
        by rewrite !list_lookup_fmap, Hi.
Qed.

Lemma res_dict_from_datafile_ranges_witness :
  ∃ d, res_dict_from_datafile [generator_marker; "# 3 EC + 10 DMC"] = Ok d
    ∧ length d = 2%nat
    ∧ ∀ i g,
        [ {| g_count := 3; g_frag := None; g_label := "EC" |};
          {| g_count := 10; g_frag := None; g_label := "DMC" |} ] !! i = Some g →
        d !! i
        = Some (g_label g,
                "resid " +:+ str (1 + sumZ (take i [3; 10]))
                +:+ "-" +:+ str (sumZ (take i [3; 10]) + g_count g)).
Proof.
  apply (res_dict_from_datafile_ranges
           [ {| g_count := 3; g_frag := None; g_label := "EC" |};
             {| g_count := 10; g_frag := None; g_label := "DMC" |} ]
           "# 3 EC + 10 DMC" []).
  - repeat (apply Forall_cons; split; [vm_compute; repeat split; congruence|]).
    constructor.
  - repeat (apply Forall_cons; split; [reflexivity|]). constructor.
  - apply (bool_decide_unpack _). vm_compute. exact I.
  - reflexivity.
  - vm_compute. reflexivity.
Defined.

(** ** The sub-names of a branched group *)

Lemma set_same_mass_entries (names0 : list string) :
  NoDup names0 →
  ∀ d start i, (∀ n, n ∈ names0 → n ∉ dict_keys d) →
    set_same_mass d start i names0 = d ++ mass_entries start i names0.
Proof.
  induction 1 as [|n names0 Hn Hnd IH]; intros d start i Hd; simpl.
  - by rewrite app_nil_r.
  - rewrite dict_set_fresh by (apply Hd; left). rewrite IH.
    + by rewrite <- app_assoc.
    + intros n' Hn'. unfold dict_keys. rewrite map_app, elem_of_app. simpl.
      rewrite list_elem_of_singleton. intros [Hin| ->]; [|done].
      revert Hin. apply Hd. by right.
Qed.

Lemma mass_entries_lookup (names0 : list string) :
  ∀ start i j n, names0 !! j = Some n →
    mass_entries start i names0 !! j
    = Some (n, "same mass as resid " +:+ str (start + i + Z.of_nat j)).
Proof.
  induction names0 as [|n0 names0 IH]; intros start i j n Hj; [done|].
  destruct j as [|j]; simpl in *.
  - injection Hj as ->. by rewrite Z.add_0_r.
  - rewrite (IH start (i + 1) j n Hj). do 4 f_equal. lia.
Qed.

Lemma mass_entries_length start i (names0 : list string) :
  length (mass_entries start i names0) = length names0.
Proof. revert i. induction names0 as [|n0 names0 IH]; intros i; simpl; auto. Qed.

Lemma append_inj (s t1 t2 : string) : s +:+ t1 = s +:+ t2 → t1 = t2.
Proof. induction s as [|c s IH]; simpl; [done|]. intros [= H]. auto. Qed.

Lemma sub_names_NoDup (label : string) (frag : Z) : NoDup (sub_names label frag).
Proof.
  unfold sub_names, slice_to. apply NoDup_fmap_2.
  - intros c1 c2 Heq. apply append_inj in Heq. by injection Heq.
  - eapply sublist_NoDup; [|apply sublist_take].
    apply (bool_decide_unpack _). vm_compute. exact I.
Qed.

Lemma sub_names_lookup (label : string) (frag : Z) (j : nat) (c : ascii) :
  (0 ≤ frag)%Z → ascii_lowercase !! j = Some c → (Z.of_nat j < frag)%Z →
  sub_names label frag !! j = Some (label +:+ String c "").
Proof.
  intros Hfrag Hc Hj. unfold sub_names, slice_to.
  rewrite list_lookup_fmap.
  replace (frag <? 0)%Z with false by (symmetry; apply Z.ltb_ge; lia).
  rewrite lookup_take_lt; [by rewrite Hc|].
  apply lookup_lt_Some in Hc. lia.
Qed.

Lemma sub_names_length (label : string) (frag : Z) :
  (0 ≤ frag)%Z → length (sub_names label frag) = Z.to_nat (Z.min frag 26).
Proof.
  intros Hfrag. unfold sub_names, slice_to. rewrite length_map, length_take.
  replace (frag <? 0)%Z with false by (symmetry; apply Z.ltb_ge; lia).
  change (length ascii_lowercase) with 26%nat. lia.
Qed.

(** X22.  For an object that holds one group of multiplicity F, a natural
    number other than 1, [res_dict_from_lammpsdata] records the label
    followed by each of the first F lowercase letters, the j-th of them
    (from 0) with "same mass as resid 1+j"; with 26 letters at hand, a
    multiplicity above 26 records 26 entries only. *)
Theorem res_dict_from_lammpsdata_branched (label : string) (N F : Z) :
  (0 ≤ F)%Z → F ≠ 1 →
  length (res_dict_from_lammpsdata
            {| names := [label]; nums := [N]; frags := Some [F] |})
  = Z.to_nat (Z.min F 26)
  ∧ ∀ j c, ascii_lowercase !! j = Some c → (Z.of_nat j < F)%Z →
      res_dict_from_lammpsdata {| names := [label]; nums := [N]; frags := Some [F] |} !! j
      = Some (label +:+ String c "", "same mass as resid " +:+ str (1 + Z.of_nat j)).
Proof.
  intros HF Hne. unfold res_dict_from_lammpsdata. simpl.
  rewrite bool_decide_false by done.
  rewrite (set_same_mass_entries _ (sub_names_NoDup label F));
    [|intros ? _; apply not_elem_of_nil].
  simpl. split.
  - by rewrite mass_entries_length, sub_names_length.
  - intros j c Hc Hj.
    rewrite (mass_entries_lookup _ 1 0 j _ (sub_names_lookup label F j c HF Hc Hj)).
    by rewrite Z.add_0_r.
Qed.

Lemma res_dict_from_lammpsdata_branched_witness :
  res_dict_from_lammpsdata {| names := ["EC"]; nums := [5]; frags := Some [30] |} !! 25%nat
  = Some ("EC" +:+ String "z" "", "same mass as resid " +:+ str (1 + Z.of_nat 25)).
Proof.
  refine (proj2 (res_dict_from_lammpsdata_branched "EC" 5 30 _ _) 25%nat "z"%char _ _).
  - lia.
  - discriminate.
  - reflexivity.
  - simpl. lia.
Defined.
